(** * Credential rotation, request retrying and response caching
      of the YouTube proxy backend

    A shallow embedding of
    - [src/utils/apiKeyManager.js] (class [ApiKeyManager]), and
    - the helpers of the YouTube controller
      ([makeApiRequestWithKeyRotation], [getCachedOrFetch]),
    followed by the properties the specification states about them.

    Conventions.
    - A JavaScript [Date] is its time value: milliseconds since the epoch,
      an integer ([Z]).  Every [new Date()] of a synchronous method is one
      clock reading, passed to the method as the argument [now].
    - A method is a function from the manager's state to a completion
      (normal return or thrown exception) and the state it leaves behind, so
      that what a method has written before it throws stays visible.
    - [keyStatus] is the [Map] from index to status object; its keys are
      [0 .. apiKeys.length-1], so it is a list read with [!!] and written
      with [<[ i := _ ]>].  [keyStatus.get(i)] on a missing index is
      [undefined], and the property access that follows throws a
      [TypeError]. *)

From Stdlib Require Import ZArith Lia Bool Ascii String List.
From stdpp Require Import base numbers option list strings pretty gmap.

Set Default Proof Using "Type".
Local Open Scope nat_scope.

(** ** Completions and the state-and-exception monad *)

Record ApiError := mkApiError {
  response_status : option Z;        (* error.response?.status *)
  data_error_code : option Z;        (* error.response?.data?.error?.code *)
  data_error_message : option string;(* error.response?.data?.error?.message *)
  message : string;                  (* error.message *)
  isNetworkOrIdempotentRequestError : bool (* axios-retry's verdict on it *)
}.

Inductive exn : Type :=
  | EUpstream (e : ApiError)   (* the rejection of axios.get *)
  | EKeysExhausted             (* Error('Todas las API keys están agotadas...') *)
  | ENoKeys                    (* Error('No se encontraron API keys...') *)
  | EInvalidIndex              (* Error('Índice de key inválido') *)
  | ETypeError                 (* property access on undefined *)
  | ENull.                     (* throw lastError, with lastError still null *)

Inductive completion (A : Type) : Type :=
  | Normal (a : A)
  | Throw (e : exn).
Arguments Normal {A} a.
Arguments Throw {A} e.

Definition M (S A : Type) : Type := S -> completion A * S.

Definition ret {S A} (a : A) : M S A := fun s => (Normal a, s).
Definition throw {S A} (e : exn) : M S A := fun s => (Throw e, s).
Definition bind {S A B} (c : M S A) (k : A -> M S B) : M S B :=
  fun s => match c s with
           | (Normal a, s') => k a s'
           | (Throw e, s') => (Throw e, s')
           end.
Definition try_catch {S A} (c : M S A) (h : exn -> M S A) : M S A :=
  fun s => match c s with
           | (Normal a, s') => (Normal a, s')
           | (Throw e, s') => h e s'
           end.

Declare Scope js_scope.
Delimit Scope js_scope with js.
Notation "x <- c ;; k" := (bind c (fun x => k))
  (at level 100, c at next level, right associativity) : js_scope.
Notation "c ;;; k" := (bind c (fun _ => k))
  (at level 100, right associativity) : js_scope.

(** ** Dates *)

Module JsDate.
Local Open Scope Z_scope.

Definition msPerHour : Z := 3600000.
Definition msPerDay : Z := 86400000.

Definition Day (t : Z) : Z := t / msPerDay.
Definition TimeWithinDay (t : Z) : Z := t mod msPerDay.

(** The zone of the host process: the offset of local time from UTC, in
    milliseconds, at a UTC instant and at a local time value
    (ECMAScript's LocalTZA(t, true) and LocalTZA(t, false)). *)
Record HostZone := mkHostZone {
  LocalTZA_utc : Z -> Z;
  LocalTZA_local : Z -> Z
}.

Definition LocalTime (z : HostZone) (t : Z) : Z := t + LocalTZA_utc z t.
Definition UTC (z : HostZone) (tl : Z) : Z := tl - LocalTZA_local z tl.

(** [d.setUTCHours(8, 0, 0, 0)]: the same UTC day, at 08:00:00.000. *)
Definition setUTCHours_8 (t : Z) : Z := Day t * msPerDay + 8 * msPerHour.

(** [d.setDate(d.getDate() + 1)].  [getDate] and [setDate] work on local
    time: with [tl = LocalTime(t)], the new time value is
    [UTC(MakeDate(MakeDay(YearFromTime tl, MonthFromTime tl,
    DateFromTime tl + 1), TimeWithinDay tl))].  A day of the month one
    past [DateFromTime tl] is the calendar day after [Day tl], so the
    local time value moves forward by exactly [msPerDay]. *)
Definition setDate_getDate_plus_1 (z : HostZone) (t : Z) : Z :=
  UTC z (LocalTime z t + msPerDay).

(** A host whose zone has one offset for ever (UTC is [fixedZone 0]). *)
Definition fixedZone (off : Z) : HostZone :=
  mkHostZone (fun _ => off) (fun _ => off).

(** America/Los_Angeles with the rules of the year 2024: UTC-8, and UTC-7
    from 2024-03-10 02:00 local (10:00 UTC) to 2024-11-03 02:00 local
    (09:00 UTC). *)
Definition losAngeles2024 : HostZone :=
  mkHostZone
    (fun t => if t <? 1710064800000 then -8 * msPerHour
              else if t <? 1730624400000 then -7 * msPerHour
              else -8 * msPerHour)
    (fun tl => if tl <? 1710036000000 then -8 * msPerHour
               else if tl <? 1730599200000 then -7 * msPerHour
               else -8 * msPerHour).
End JsDate.
Export JsDate.

(** ** The key manager *)

Record KeyStatus := mkKeyStatus {
  key : string;
  isActive : bool;
  failCount : nat;
  lastError : option string;
  lastUsed : option Z;
  quotaExceeded : bool;
  resetTime : option Z
}.

Record KeyManager := mkKeyManager {
  apiKeys : list string;
  currentKeyIndex : nat;
  keyStatus : list KeyStatus
}.

Definition set_currentKeyIndex (i : nat) (m : KeyManager) : KeyManager :=
  mkKeyManager (apiKeys m) i (keyStatus m).

Definition set_status (i : nat) (s : KeyStatus) (m : KeyManager) : KeyManager :=
  mkKeyManager (apiKeys m) (currentKeyIndex m) (<[ i := s ]> (keyStatus m)).

(** The three states of the specification, read off the two flags the
    code keeps.  The rotation looks at [quotaExceeded] first: a status with
    that flag set is waiting for its reset time whatever [isActive] says. *)
Inductive Status := Active | QuotaExceeded | Disabled.

Definition status_of (s : KeyStatus) : Status :=
  if quotaExceeded s then QuotaExceeded
  else if isActive s then Active else Disabled.

Definition initialStatus (k : string) : KeyStatus :=
  mkKeyStatus k true 0 None None false None.

(** [constructor], on the keys [loadApiKeys] found in the environment. *)
Definition constructor (keys : list string) : completion KeyManager :=
  match keys with
  | [] => Throw ENoKeys
  | _ => Normal (mkKeyManager keys 0 (map initialStatus keys))
  end.

Section KeyManagerMethods.
Variable zone : HostZone.
Local Open Scope js_scope.

(** [this.keyStatus.get(i)], followed by a property access. *)
Definition getStatus (i : nat) : M KeyManager KeyStatus :=
  fun m => match keyStatus m !! i with
           | Some s => (Normal s, m)
           | None => (Throw ETypeError, m)
           end.

Definition putStatus (i : nat) (s : KeyStatus) : M KeyManager unit :=
  fun m => (Normal tt, set_status i s m).

Definition getIndex : M KeyManager nat :=
  fun m => (Normal (currentKeyIndex m), m).

Definition getCurrentKey (now : Z) : M KeyManager string :=
  i <- getIndex ;;
  status <- getStatus i ;;
  putStatus i (mkKeyStatus (key status) (isActive status) (failCount status)
                 (lastError status) (Some now) (quotaExceeded status)
                 (resetTime status)) ;;;
  ret (key status).

Definition shouldResetKey (now : Z) (status : KeyStatus) : bool :=
  match resetTime status with
  | None => false
  | Some r => (r <=? now)%Z
  end.

Definition calculateResetTime (now : Z) : Z :=
  let resetTime := setUTCHours_8 now in
  if (resetTime <=? now)%Z then setDate_getDate_plus_1 zone resetTime
  else resetTime.

(** What the reactivation branch of [rotateToNextKey] writes. *)
Definition reactivate (status : KeyStatus) : KeyStatus :=
  mkKeyStatus (key status) true 0 (lastError status) (lastUsed status)
    false (resetTime status).

(** The [do ... while] of [rotateToNextKey].  [left] is
    [apiKeys.length - attempts] after the [attempts++] of the iteration
    being run, so that [attempts < apiKeys.length] reads [left > 0]. *)
Fixpoint rotate_loop (left : nat) (startIndex : nat) (now : Z)
    (m : KeyManager) : completion string * KeyManager :=
  let idx := (currentKeyIndex m + 1) mod length (apiKeys m) in
  let m1 := set_currentKeyIndex idx m in
  match keyStatus m1 !! idx with
  | None => (Throw ETypeError, m1)
  | Some status =>
      if isActive status && negb (quotaExceeded status)
      then (Normal (key status), m1)
      else if quotaExceeded status && shouldResetKey now status
      then (Normal (key status), set_status idx (reactivate status) m1)
      else match left with
           | S left' =>
               if negb (idx =? startIndex)
               then rotate_loop left' startIndex now m1
               else (Throw EKeysExhausted, m1)
           | O => (Throw EKeysExhausted, m1)
           end
  end.

Definition rotateToNextKey (now : Z) : M KeyManager string :=
  fun m => rotate_loop (length (apiKeys m) - 1) (currentKeyIndex m) now m.

Definition markCurrentKeyAsExhausted (error : string) (now : Z)
    : M KeyManager string :=
  i <- getIndex ;;
  status <- getStatus i ;;
  putStatus i (mkKeyStatus (key status) false (failCount status)
                 (Some error) (lastUsed status) true
                 (Some (calculateResetTime now))) ;;;
  rotateToNextKey now.

Definition markCurrentKeyError (error : string) (now : Z)
    : M KeyManager string :=
  i <- getIndex ;;
  status <- getStatus i ;;
  let failCount' := S (failCount status) in
  if 3 <=? failCount' then
    putStatus i (mkKeyStatus (key status) false failCount' (Some error)
                   (lastUsed status) (quotaExceeded status)
                   (resetTime status)) ;;;
    rotateToNextKey now
  else
    putStatus i (mkKeyStatus (key status) (isActive status) failCount'
                   (Some error) (lastUsed status) (quotaExceeded status)
                   (resetTime status)) ;;;
    ret (key status).

Definition resetCurrentKeyErrors : M KeyManager unit :=
  i <- getIndex ;;
  status <- getStatus i ;;
  putStatus i (mkKeyStatus (key status) (isActive status) 0 None
                 (lastUsed status) (quotaExceeded status)
                 (resetTime status)).

Definition resetStatus (status : KeyStatus) : KeyStatus :=
  mkKeyStatus (key status) true 0 None (lastUsed status) false None.

Definition resetKey (keyIndex : Z) : M KeyManager unit :=
  fun m =>
    if ((keyIndex <? 0) || (Z.of_nat (length (apiKeys m)) <=? keyIndex))%Z
    then (Throw EInvalidIndex, m)
    else (status <- getStatus (Z.to_nat keyIndex) ;;
          putStatus (Z.to_nat keyIndex) (resetStatus status)) m.

Definition resetAllKeys : M KeyManager unit :=
  fun m => (Normal tt,
            mkKeyManager (apiKeys m) (currentKeyIndex m)
              (map resetStatus (keyStatus m))).
End KeyManagerMethods.


(** ** Classifying an upstream error *)

Definition lower_ascii (c : ascii) : ascii :=
  let n := nat_of_ascii c in
  if (65 <=? n) && (n <=? 90) then ascii_of_nat (n + 32) else c.

(** Lower-casing of the ASCII letters; every other character is kept. *)
Fixpoint asciiLowerCase (s : string) : string :=
  match s with
  | EmptyString => EmptyString
  | String c s' => String (lower_ascii c) (asciiLowerCase s')
  end.

(** The characters below U+0080. *)
Fixpoint is_ascii (s : string) : bool :=
  match s with
  | EmptyString => true
  | String c s' => (nat_of_ascii c <? 128) && is_ascii s'
  end.

(** A string is the sequence of its characters: an ASCII character is
    itself, any other one is the bytes of its UTF-8 encoding (all of them
    above 127).

    [String.prototype.toLowerCase] belongs to the JavaScript engine, not to
    the repository; it follows the case mappings of Unicode, under which
    characters outside ASCII can change too, and a few become ASCII letters
    (the Kelvin sign U+212A becomes k).  It is taken as a parameter, with
    what the language definition guarantees on ASCII text: a string of
    ASCII characters is lower-cased letter by letter, and a run of ASCII
    characters inside any string comes out lower-cased in the result. *)
Class JsEngine := {
  toLowerCase : string -> string;
  toLowerCase_ascii :
    forall s, is_ascii s = true -> toLowerCase s = asciiLowerCase s;
  toLowerCase_segment :
    forall pre w post, is_ascii w = true ->
      exists a b,
        toLowerCase (pre ++ w ++ post) = (a ++ asciiLowerCase w ++ b)%string
}.

(** Among the characters outside ASCII that the case mappings of Unicode
    change, one becomes an ASCII letter: the Kelvin sign U+212A, whose
    UTF-8 encoding is the three bytes 226, 132, 170, is lower-cased to k. *)
Definition kelvinSign : string :=
  String (ascii_of_nat 226) (String (ascii_of_nat 132)
    (String (ascii_of_nat 170) EmptyString)).

Definition is_kelvinSign (c1 c2 c3 : ascii) : bool :=
  (nat_of_ascii c1 =? 226) && (nat_of_ascii c2 =? 132) &&
  (nat_of_ascii c3 =? 170).

(** Lower-casing that maps the ASCII letters and the Kelvin sign. *)
Fixpoint kelvinLowerCase (s : string) : string :=
  match s with
  | EmptyString => EmptyString
  | String c1 s1 =>
      match s1 with
      | String c2 (String c3 s3) =>
          if is_kelvinSign c1 c2 c3 then String "k" (kelvinLowerCase s3)
          else String (lower_ascii c1) (kelvinLowerCase s1)
      | _ => String (lower_ascii c1) (kelvinLowerCase s1)
      end
  end.

(** [s.includes(t)].  The tokens searched for are ASCII, and no byte of
    the encoding of another character is an ASCII one: a token is found in
    the encoded string where it is found in the string. *)
Fixpoint includes (s t : string) : bool :=
  String.prefix t s ||
  match s with
  | EmptyString => false
  | String _ s' => includes s' t
  end.

(** [error.response?.data?.error?.message || error.message || ''].  An
    empty string is falsy, and so is the [undefined] of a missing field. *)
Definition errorMessage (error : ApiError) : string :=
  match data_error_message error with
  | Some (String c s) => String c s
  | _ => message error
  end.

Definition isQuotaError `{JS : JsEngine} (error : ApiError) : bool :=
  let errorMessage := errorMessage error in
  let errorCode := data_error_code error in
  match errorCode with Some c => (c =? 403)%Z | None => false end ||
  includes (toLowerCase errorMessage) "quota" ||
  includes (toLowerCase errorMessage) "exceeded" ||
  includes (toLowerCase errorMessage) "limit".

Definition isInvalidKeyError `{JS : JsEngine} (error : ApiError) : bool :=
  let errorMessage := errorMessage error in
  includes (toLowerCase errorMessage) "api key" ||
  includes (toLowerCase errorMessage) "invalid" ||
  includes (toLowerCase errorMessage) "unregistered".

Definition has_status (error : ApiError) (code : Z) : bool :=
  match response_status error with
  | Some c => (c =? code)%Z
  | None => false
  end.

(** The [retryCondition] handed to axios-retry: the errors the HTTP client
    itself retries with exponential delays, on the same key. *)
Definition retryCondition (error : ApiError) : bool :=
  isNetworkOrIdempotentRequestError error ||
  has_status error 503 || has_status error 429.

(** The test that opens the retry branch of
    [makeApiRequestWithKeyRotation]:
    [statusCode === 429 || statusCode === 403]. *)
Definition isRotationStatus (error : ApiError) : bool :=
  has_status error 429 || has_status error 403.

(** The four classes of the specification, in the order the code asks
    its questions: the key manager's two tests first (quota before invalid
    key), then the statuses on which a request is tried again, and what is
    left is fatal. *)
Inductive ErrorClass := Quota | InvalidCredential | Transient | Fatal.

Definition classify `{JS : JsEngine} (error : ApiError) : ErrorClass :=
  if isQuotaError error then Quota
  else if isInvalidKeyError error then InvalidCredential
  else if retryCondition error || isRotationStatus error then Transient
  else Fatal.

(** The character [c] is the character [t] of a lower-case token, in
    either case: [t] itself, or the capital letter (32 below in ASCII) when
    [t] is one of a..z. *)
Definition case_variant (c t : ascii) : bool :=
  let n := nat_of_ascii c in
  let k := nat_of_ascii t in
  ((n =? k) && negb ((65 <=? n) && (n <=? 90))) ||
  ((97 <=? k) && (k <=? 122) && (n + 32 =? k)).

Fixpoint anycase (w t : string) : bool :=
  match w, t with
  | EmptyString, EmptyString => true
  | String c w', String d t' => case_variant c d && anycase w' t'
  | _, _ => false
  end.

(** [s] contains the token [t] in some mix of upper and lower case. *)
Definition contains_ci (s t : string) : Prop :=
  exists pre w post, s = (pre ++ w ++ post)%string /\ anycase w t = true.

Section KeyManagerErrors.
Context `{JS : JsEngine}.
Variable zone : HostZone.
Local Open Scope js_scope.

Definition handleApiError (error : ApiError) (now : Z) : M KeyManager string :=
  if isQuotaError error then
    markCurrentKeyAsExhausted zone (message error) now
  else if isInvalidKeyError error then
    markCurrentKeyError (message error) now
  else
    getCurrentKey now.
End KeyManagerErrors.

(** ** The request loop of the controller *)

Inductive Event :=
  | EvGet (attempt : nat) (apiKey : string)   (* axios.get(url, {params: {..., key}}) *)
  | EvSleep (ms : Z).                         (* await new Promise(r => setTimeout(r, ms)) *)

Record World := mkWorld {
  manager : KeyManager;   (* the singleton of getApiKeyManager() *)
  trace : list Event      (* what the loop did, oldest first *)
}.

Definition lift {A} (c : M KeyManager A) : M World A :=
  fun w => match c (manager w) with
           | (r, m') => (r, mkWorld m' (trace w))
           end.

Definition emit (ev : Event) : M World unit :=
  fun w => (Normal tt, mkWorld (manager w) (trace w ++ [ev])).

Section Controller.
Context `{JS : JsEngine}.
Variable zone : HostZone.
Variable Response : Type.
(** The upstream API as seen through [axios.get] (with the retries
    axios-retry makes inside it): what the request of a given attempt,
    sent with a given key, comes back with. *)
Variable axios_get : nat -> string -> Response + ApiError.
(** The clock when an attempt starts and when its failure is handled. *)
Variable clock_try clock_catch : nat -> Z.
Local Open Scope js_scope.

(** [getCurrentApiKey]: the key of [getCurrentKey]; the call of
    [getCurrentKeyInfo] that follows only reads, for the log line. *)
Definition getCurrentApiKey (now : Z) : M KeyManager string :=
  k <- getCurrentKey now ;;
  ret k.

(** The controller's own [handleApiError]: delegate, then re-throw. *)
Definition handleApiError_rethrow (error : ApiError) (now : Z)
    : M KeyManager unit :=
  handleApiError zone error now ;;;
  throw (EUpstream error).

Definition markRequestSuccess : M KeyManager unit := resetCurrentKeyErrors.

Definition get (attempt : nat) (apiKey : string) : M World Response :=
  emit (EvGet attempt apiKey) ;;;
  match axios_get attempt apiKey with
  | inl response => ret response
  | inr error => throw (EUpstream error)
  end.

(** The [for] loop; [remaining] is [maxRetries - attempt]. *)
Fixpoint request_loop (remaining : nat) (attempt maxRetries : nat)
    (lastError : exn) : M World Response :=
  match remaining with
  | O => throw lastError
  | S remaining' =>
      try_catch
        (apiKey <- lift (getCurrentApiKey (clock_try attempt)) ;;
         response <- get attempt apiKey ;;
         lift markRequestSuccess ;;;
         ret response)
        (fun error =>
           match error with
           | EUpstream e =>
               if isRotationStatus e then
                 try_catch
                   (lift (handleApiError_rethrow e (clock_catch attempt)))
                   (fun _ => ret tt) ;;;
                 if attempt <? maxRetries - 1 then
                   emit (EvSleep 1000) ;;;
                   request_loop remaining' (S attempt) maxRetries error
                 else throw error
               else throw error
           | _ => throw error   (* error.response?.status is undefined *)
           end)
  end.

Definition makeApiRequestWithKeyRotation (maxRetries : nat)
    : M World Response :=
  request_loop maxRetries 0 maxRetries ENull.
End Controller.

(** ** The response cache *)

Section Cache.
(** The values the fetch functions resolve to, and are stored. *)
Variable V : Type.
(** What a fetch function can touch: the key manager, the upstream. *)
Variable W : Type.

Record CacheEntry := mkCacheEntry {
  ce_key : string;
  ce_value : V;
  ce_storedAt : Z
}.

(** Modelled from the spec: the class [LRUCache] of the package lru-cache,
    which the controller only configures
    ([max: 500, ttl: 1000 * 60 * 30, updateAgeOnGet: true]).  The entries
    are kept most recently accessed first; an entry is visible while
    [now - storedAt < ttl]; an expired entry is treated as absent and
    dropped when it is looked up; a read hit refreshes recency (and, by
    [updateAgeOnGet], the age); a write that exceeds the capacity evicts
    the least recently accessed entry. *)
Definition Cache := list CacheEntry.

Definition cache_max : nat := 500.
Definition cache_ttl : Z := 1000 * 60 * 30.

Definition isStale (now : Z) (e : CacheEntry) : bool :=
  (cache_ttl <=? now - ce_storedAt e)%Z.

Fixpoint cache_find (k : string) (c : Cache) : option CacheEntry :=
  match c with
  | [] => None
  | e :: c' => if String.eqb (ce_key e) k then Some e else cache_find k c'
  end.

Fixpoint cache_delete (k : string) (c : Cache) : Cache :=
  match c with
  | [] => []
  | e :: c' =>
      if String.eqb (ce_key e) k then cache_delete k c'
      else e :: cache_delete k c'
  end.

(** What a reader sees under [k] at time [now] (no effect on the cache). *)
Definition cache_peek (now : Z) (k : string) (c : Cache) : option V :=
  match cache_find k c with
  | Some e => if isStale now e then None else Some (ce_value e)
  | None => None
  end.

Definition cache_get (now : Z) (k : string) (c : Cache) : option V * Cache :=
  match cache_find k c with
  | Some e =>
      if isStale now e then (None, cache_delete k c)
      else (Some (ce_value e),
            mkCacheEntry k (ce_value e) now :: cache_delete k c)
  | None => (None, c)
  end.

Definition cache_set (now : Z) (k : string) (v : V) (c : Cache) : Cache :=
  let c' := mkCacheEntry k v now :: cache_delete k c in
  if cache_max <? length c' then removelast c' else c'.

(** JavaScript's truthiness of a value: [false], [0], [NaN], the empty
    string, [null] and [undefined] are falsy, everything else (every
    object and array) is truthy. *)
Variable truthy : V -> bool.

(** [getCachedOrFetch(cacheKey, fetchFunction)]: [now] is the clock at the
    lookup, [now'] the clock when the awaited fetch has resolved.  The
    cached value is returned under the test [if (cached)]; a value that is
    present but falsy is fetched again, like an absent one. *)
Definition getCachedOrFetch (now now' : Z) (cacheKey : string)
    (fetchFunction : M W V) : M (Cache * W) V :=
  fun '(cache, w) =>
    let fetch cache1 :=
      match fetchFunction w with
      | (Normal data, w') =>
          (Normal data, (cache_set now' cacheKey data cache1, w'))
      | (Throw e, w') => (Throw e, (cache1, w'))
      end in
    match cache_get now cacheKey cache with
    | (Some cached, cache1) =>
        if truthy cached then (Normal cached, (cache1, w)) else fetch cache1
    | (None, cache1) => fetch cache1
    end.
End Cache.

(** ** Pool states and runs *)

(** What the constructor establishes and every method keeps. *)
Definition wf (m : KeyManager) : Prop :=
  0 < length (apiKeys m) /\
  length (keyStatus m) = length (apiKeys m) /\
  currentKeyIndex m < length (apiKeys m).

(** A status the scan of [rotateToNextKey] steps over at time [now]:
    neither usable as it is nor due for reactivation. *)
Definition passedOver (now : Z) (status : KeyStatus) : bool :=
  negb (isActive status && negb (quotaExceeded status)) &&
  negb (quotaExceeded status && shouldResetKey now status).

(** The public methods that write to the manager, as the steps of a
    transition system. *)
Inductive Op :=
  | OpGetCurrentKey (now : Z)
  | OpMarkExhausted (error : string) (now : Z)
  | OpMarkError (error : string) (now : Z)
  | OpResetErrors
  | OpRotate (now : Z)
  | OpHandleApiError (error : ApiError) (now : Z)
  | OpResetKey (keyIndex : Z)
  | OpResetAllKeys.

Definition run_op `{JS : JsEngine} (zone : HostZone) (op : Op) (m : KeyManager)
    : KeyManager :=
  match op with
  | OpGetCurrentKey now => snd (getCurrentKey now m)
  | OpMarkExhausted error now => snd (markCurrentKeyAsExhausted zone error now m)
  | OpMarkError error now => snd (markCurrentKeyError error now m)
  | OpResetErrors => snd (resetCurrentKeyErrors m)
  | OpRotate now => snd (rotateToNextKey now m)
  | OpHandleApiError error now => snd (handleApiError zone error now m)
  | OpResetKey keyIndex => snd (resetKey keyIndex m)
  | OpResetAllKeys => snd (resetAllKeys m)
  end.

Inductive reachable `{JS : JsEngine} (zone : HostZone) : KeyManager -> Prop :=
  | reachable_init keys m :
      constructor keys = Normal m -> reachable zone m
  | reachable_step op m :
      reachable zone m -> reachable zone (run_op zone op m).

(** A run of [markCurrentKeyAsExhausted] calls, one per (error, clock)
    pair; the log has, for each call, the index that was current when it
    was made and its completion. *)
Fixpoint exhaust_calls (zone : HostZone) (calls : list (string * Z))
    (m : KeyManager) : list (nat * completion string) * KeyManager :=
  match calls with
  | [] => ([], m)
  | (error, now) :: calls' =>
      let '(r, m1) := markCurrentKeyAsExhausted zone error now m in
      let '(log, m2) := exhaust_calls zone calls' m1 in
      ((currentKeyIndex m, r) :: log, m2)
  end.

(** ** Concrete pools, errors and upstreams used below *)

Module Fixtures.
Local Open Scope Z_scope.

Definition utc : HostZone := fixedZone 0.

(** 2024-03-10T09:00:00.000Z *)
Definition t0 : Z := 1710061200000.

Definition pool1 : KeyManager :=
  mkKeyManager ["K0"%string] 0 [initialStatus "K0"].

Definition pool3 : KeyManager :=
  mkKeyManager ["K0"; "K1"; "K2"]%string 0
    [initialStatus "K0"; initialStatus "K1"; initialStatus "K2"].

(** Two keys; the second ran out of quota and its reset time is [t0]. *)
Definition pool_waiting : KeyManager :=
  mkKeyManager ["K0"; "K1"]%string 0
    [initialStatus "K0";
     mkKeyStatus "K1" false 2 (Some "quotaExceeded"%string) None true (Some t0)].

(** A 403 of the upstream with the body of a quota refusal. *)
Definition quota403 : ApiError :=
  mkApiError (Some 403) (Some 403)
    (Some "The request cannot be completed because you have exceeded your quota."%string)
    "Request failed with status code 403" false.

(** A 404 with a plain body. *)
Definition notFound404 : ApiError :=
  mkApiError (Some 404) (Some 404) (Some "Requested entity was not found."%string)
    "Request failed with status code 404" false.


Definition always_quota403 : nat -> string -> unit + ApiError :=
  fun _ _ => inr quota403.

Definition always_notFound : nat -> string -> unit + ApiError :=
  fun _ _ => inr notFound404.
End Fixtures.

(** ** Loading the keys *)

(** [process.env[name]] as a condition: a variable that is not set, or set
    to the empty string, is falsy. *)
Definition env_truthy (env : gmap string string) (name : string)
    : option string :=
  match env !! name with
  | Some (String c s) => Some (String c s)
  | _ => None
  end.

(** The template literal [`YOUTUBE_API_KEY_${index}`]. *)
Definition numbered_name (index : nat) : string :=
  "YOUTUBE_API_KEY_" +:+ pretty index.

(** The [while] of [loadApiKeys].  Every turn finds one more variable of
    the environment, so the number of turns is bounded by its size; [turns]
    is that bound. *)
Fixpoint load_numbered (turns : nat) (index : nat)
    (env : gmap string string) : list string :=
  match turns with
  | O => []
  | S turns' =>
      match env_truthy env (numbered_name index) with
      | Some k => k :: load_numbered turns' (S index) env
      | None => []
      end
  end.

Definition loadApiKeys (env : gmap string string) : completion (list string) :=
  let keys :=
    match env_truthy env "YOUTUBE_API_KEY" with
    | Some k => [k]
    | None => []
    end ++ load_numbered (S (size env)) 1 env in
  match keys with
  | [] => Throw ENoKeys
  | _ => Normal keys
  end.

(** [new ApiKeyManager()], from the environment of the process. *)
Definition constructor_env (env : gmap string string)
    : completion KeyManager :=
  match loadApiKeys env with
  | Normal keys => constructor keys
  | Throw e => Throw e
  end.

(** ** Reporting on the pool *)

(** An element of the array [getAllKeysStatus] builds (the key itself is
    not part of it). *)
Record KeyReport := mkKeyReport {
  keyNumber : nat;
  report_isActive : bool;
  report_quotaExceeded : bool;
  report_failCount : nat;
  report_lastUsed : option Z;
  report_lastError : option string;
  report_resetTime : option Z;
  isCurrent : bool
}.

Definition getAllKeysStatus (m : KeyManager) : list KeyReport :=
  imap (fun index value =>
          mkKeyReport (index + 1) (isActive value) (quotaExceeded value)
            (failCount value) (lastUsed value) (lastError value)
            (resetTime value) (index =? currentKeyIndex m))
       (keyStatus m).

(** [getCurrentKeyInfo]: [index], [total], [status] (which is [undefined]
    when the map has nothing at the current index). *)
Definition getCurrentKeyInfo (m : KeyManager) : nat * nat * option KeyStatus :=
  (currentKeyIndex m + 1, length (apiKeys m),
   keyStatus m !! currentKeyIndex m).

(** ** The shape of a run of the request loop *)

(** The events of consecutive attempts sent with the keys [keys], the first
    of them numbered [attempt]: a request each, a wait of one second
    between two of them. *)
Fixpoint attempts_trace (attempt : nat) (keys : list string) : list Event :=
  match keys with
  | [] => []
  | k :: keys' =>
      EvGet attempt k ::
      match keys' with
      | [] => []
      | _ => EvSleep 1000 :: attempts_trace (S attempt) keys'
      end
  end.

(** The outcome of a run of the loop against an upstream, by the keys it
    has sent (the first of them in the attempt numbered [attempt]): the
    answer of the upstream to the last request. *)
Definition outcome_of {Response : Type}
    (axios_get : nat -> string -> Response + ApiError)
    (attempt : nat) (keys : list string) (c : completion Response) : Prop :=
  exists k, last keys = Some k /\
    match c with
    | Normal response =>
        axios_get (attempt + length keys - 1) k = inl response
    | Throw x =>
        exists e, x = EUpstream e /\
                  axios_get (attempt + length keys - 1) k = inr e
    end.

(** ** More errors and upstreams used below *)

Module MoreFixtures.
Local Open Scope Z_scope.

(** The 400 the upstream answers to a key it does not know. *)
Definition invalidKey400 : ApiError :=
  mkApiError (Some 400) (Some 400)
    (Some "API key not valid. Please pass a valid API key."%string)
    "Request failed with status code 400" false.

(** A 429 whose body names neither quota nor key. *)
Definition busy429 : ApiError :=
  mkApiError (Some 429) (Some 429) (Some "Too many requests"%string)
    "Request failed with status code 429" false.

Definition always_invalidKey : nat -> string -> unit + ApiError :=
  fun _ _ => inr invalidKey400.

(** Out of quota on the first key, fine on any other. *)
Definition quota_on_K0 : nat -> string -> unit + ApiError :=
  fun _ k => if String.eqb k "K0" then inr Fixtures.quota403 else inl tt.

(** An environment with a gap in the numbering of its keys. *)
Definition env_gap : gmap string string :=
  <[ "YOUTUBE_API_KEY"%string := "A"%string ]>
    (<[ "YOUTUBE_API_KEY_1"%string := "B"%string ]>
       (<[ "YOUTUBE_API_KEY_3"%string := "D"%string ]> ∅)).

(** A message with no token of an invalid key in any case of its ASCII
    letters: the K of its "API Key" is the Kelvin sign. *)
Definition kelvinKey : ApiError :=
  mkApiError (Some 400) (Some 400)
    (Some ("Bad API " ++ kelvinSign ++ "ey")%string)
    "Request failed with status code 400" false.

(** A 403 whose body carries no error object: the HTTP status is 403, the
    payload has neither code nor message. *)
Definition forbidden403 : ApiError :=
  mkApiError (Some 403) None None "Request failed with status code 403" false.

(** The pool of one key after that key ran out of quota at [t0]: the
    rotation found no other key, so the index is still on it, flagged and
    waiting for its reset time (2024-03-11T08:00:00Z). *)
Definition pool1_out : KeyManager :=
  snd (markCurrentKeyAsExhausted Fixtures.utc "quota" Fixtures.t0
         Fixtures.pool1).

(** Three failures in a row reported for the current key, the third one at
    the time [t3]; the completion is that of the third call. *)
Definition three_errors (t3 : Z) (m : KeyManager)
    : completion string * KeyManager :=
  markCurrentKeyError "bad key" t3
    (snd (markCurrentKeyError "bad key" (Fixtures.t0 + 2000)
            (snd (markCurrentKeyError "bad key" (Fixtures.t0 + 1000) m)))).

(** Truthiness of a number: every number but 0 (and NaN). *)
Definition nonzero (n : nat) : bool := negb (n =? 0)%nat.

(** Busy on the first attempt, fine afterwards. *)
Definition busy_once : nat -> string -> unit + ApiError :=
  fun attempt _ => if (attempt =? 0)%nat then inr busy429 else inl tt.
End MoreFixtures.

(** ** What the cache holds *)

(** At most one entry for a key, and no more entries than the capacity. *)
Definition cache_ok {V : Type} (c : Cache V) : Prop :=
  NoDup (ce_key V <$> c) /\ length c <= cache_max.

(** * Properties *)

(** ** Lower-casing *)

Lemma asciiLowerCase_app (a b : string) :
  asciiLowerCase (a ++ b) = (asciiLowerCase a ++ asciiLowerCase b)%string.
Proof.
  induction a as [| c a IH]; simpl; [reflexivity | now rewrite IH].
Qed.

Lemma asciiLowerCase_segment (pre w post : string) :
  is_ascii w = true ->
  exists a b,
    asciiLowerCase (pre ++ w ++ post) = (a ++ asciiLowerCase w ++ b)%string.
Proof.
  intros _. exists (asciiLowerCase pre), (asciiLowerCase post).
  now rewrite !asciiLowerCase_app.
Qed.

(** The engine that changes the ASCII letters only.  It is the one the
    examples are evaluated with: their messages are ASCII, and on such
    messages every engine gives the same result. *)
#[global] Instance asciiEngine : JsEngine := {|
  toLowerCase := asciiLowerCase;
  toLowerCase_ascii := fun s _ => eq_refl;
  toLowerCase_segment := asciiLowerCase_segment
|}.

Lemma string_app_nil_r (s : string) : (s ++ "")%string = s.
Proof.
  induction s as [| c s IH]; [reflexivity |].
  change (String c (s ++ "") = String c s). now rewrite IH.
Qed.

Lemma kelvinLowerCase_other (c1 : ascii) (s1 : string) :
  match s1 with
  | String c2 (String c3 _) => is_kelvinSign c1 c2 c3
  | _ => false
  end = false ->
  kelvinLowerCase (String c1 s1)
  = String (lower_ascii c1) (kelvinLowerCase s1).
Proof.
  destruct s1 as [| c2 [| c3 s3]]; try reflexivity.
  intros Hk. cbn [kelvinLowerCase]. now rewrite Hk.
Qed.

Lemma kelvinLowerCase_cons (c : ascii) (s : string) :
  (nat_of_ascii c <? 128) = true ->
  kelvinLowerCase (String c s) = String (lower_ascii c) (kelvinLowerCase s).
Proof.
  intros Hc. apply Nat.ltb_lt in Hc. apply kelvinLowerCase_other.
  destruct s as [| c2 [| c3 s3]]; try reflexivity.
  unfold is_kelvinSign.
  replace (nat_of_ascii c =? 226) with false
    by (symmetry; apply Nat.eqb_neq; lia).
  reflexivity.
Qed.

Lemma kelvinLowerCase_ascii (s : string) :
  is_ascii s = true -> kelvinLowerCase s = asciiLowerCase s.
Proof.
  induction s as [| c s IH]; [reflexivity |]. cbn [is_ascii].
  intros Ha. apply andb_true_iff in Ha as [Hc Hs].
  rewrite (kelvinLowerCase_cons _ _ Hc). cbn [asciiLowerCase].
  now rewrite (IH Hs).
Qed.

Lemma kelvinLowerCase_ascii_app (w post : string) :
  is_ascii w = true ->
  kelvinLowerCase (w ++ post)
  = (asciiLowerCase w ++ kelvinLowerCase post)%string.
Proof.
  induction w as [| c w IH]; [reflexivity |]. cbn [is_ascii].
  intros Ha. apply andb_true_iff in Ha as [Hc Hw].
  change (String c w ++ post)%string with (String c (w ++ post)).
  rewrite (kelvinLowerCase_cons _ _ Hc). cbn [asciiLowerCase].
  now rewrite (IH Hw).
Qed.

(** What comes before an ASCII character has no effect on what follows
    it. *)
Lemma kelvinLowerCase_before (c0 : ascii) (x : string) :
  (nat_of_ascii c0 <? 128) = true ->
  forall n pre, String.length pre <= n ->
    exists a, kelvinLowerCase (pre ++ String c0 x)
              = (a ++ kelvinLowerCase (String c0 x))%string.
Proof.
  intros Hc0. apply Nat.ltb_lt in Hc0.
  induction n as [| n IH]; intros pre Hlen.
  - destruct pre; [| simpl in Hlen; lia]. now exists ""%string.
  - destruct pre as [| c1 p1]; [now exists ""%string |].
    simpl in Hlen.
    change (String c1 p1 ++ String c0 x)%string
      with (String c1 (p1 ++ String c0 x)).
    assert (Hother : forall a,
              kelvinLowerCase (p1 ++ String c0 x)
              = (a ++ kelvinLowerCase (String c0 x))%string ->
              match (p1 ++ String c0 x)%string with
              | String c2 (String c3 _) => is_kelvinSign c1 c2 c3
              | _ => false
              end = false ->
              exists a', kelvinLowerCase (String c1 (p1 ++ String c0 x))
                         = (a' ++ kelvinLowerCase (String c0 x))%string).
    { intros a Ha Hk. exists (String (lower_ascii c1) a).
      rewrite (kelvinLowerCase_other _ _ Hk), Ha. reflexivity. }
    destruct (IH p1 ltac:(lia)) as [a Ha].
    destruct p1 as [| c2 [| c3 p3]].
    + apply (Hother a Ha). simpl. destruct x; [reflexivity |].
      unfold is_kelvinSign.
      replace (nat_of_ascii c0 =? 132) with false
        by (symmetry; apply Nat.eqb_neq; lia).
      now rewrite andb_false_r.
    + apply (Hother a Ha). simpl. unfold is_kelvinSign.
      replace (nat_of_ascii c0 =? 170) with false
        by (symmetry; apply Nat.eqb_neq; lia).
      now rewrite andb_false_r.
    + destruct (is_kelvinSign c1 c2 c3) eqn:Hk.
      * destruct (IH p3 ltac:(simpl in Hlen; lia)) as [a3 Ha3].
        exists (String "k" a3).
        change (String c2 (String c3 p3) ++ String c0 x)%string
          with (String c2 (String c3 (p3 ++ String c0 x))).
        cbn [kelvinLowerCase]. rewrite Hk, Ha3. reflexivity.
      * apply (Hother a Ha). exact Hk.
Qed.

Lemma kelvinLowerCase_segment (pre w post : string) :
  is_ascii w = true ->
  exists a b,
    kelvinLowerCase (pre ++ w ++ post)
    = (a ++ asciiLowerCase w ++ b)%string.
Proof.
  intros Hw. destruct w as [| c0 w'].
  - exists (kelvinLowerCase (pre ++ post)), ""%string.
    change ("" ++ post)%string with post.
    change (asciiLowerCase "" ++ "")%string with ""%string.
    now rewrite string_app_nil_r.
  - pose proof Hw as Hw0. cbn [is_ascii] in Hw0.
    apply andb_true_iff in Hw0 as [Hc0 _].
    destruct (kelvinLowerCase_before c0 (w' ++ post) Hc0
                (String.length pre) pre (le_n _)) as [a Ha].
    exists a, (kelvinLowerCase post).
    change (String c0 w' ++ post)%string with (String c0 (w' ++ post)).
    rewrite Ha.
    change (String c0 (w' ++ post)) with (String c0 w' ++ post)%string.
    now rewrite (kelvinLowerCase_ascii_app _ _ Hw).
Qed.

(** An engine that also lower-cases the Kelvin sign. *)
Definition kelvinEngine : JsEngine := {|
  toLowerCase := kelvinLowerCase;
  toLowerCase_ascii := kelvinLowerCase_ascii;
  toLowerCase_segment := kelvinLowerCase_segment
|}.

Lemma is_ascii_app (a b : string) :
  is_ascii (a ++ b) = is_ascii a && is_ascii b.
Proof.
  induction a as [| c a IH]; simpl; [reflexivity |].
  now rewrite IH, andb_assoc.
Qed.

Lemma case_variant_lower (c t : ascii) :
  case_variant c t = true -> lower_ascii c = t.
Proof.
  unfold case_variant, lower_ascii. cbv zeta. intros Hv.
  apply orb_true_iff in Hv as [Hv | Hv].
  - apply andb_true_iff in Hv as [Heq Hup].
    apply Nat.eqb_eq in Heq. apply negb_true_iff in Hup. rewrite Hup.
    rewrite <- (ascii_nat_embedding c), <- (ascii_nat_embedding t).
    now rewrite Heq.
  - apply andb_true_iff in Hv as [Hv Heq].
    apply andb_true_iff in Hv as [Hlo Hhi].
    apply Nat.eqb_eq in Heq. apply Nat.leb_le in Hlo, Hhi.
    replace ((65 <=? nat_of_ascii c) && (nat_of_ascii c <=? 90)) with true.
    + rewrite Heq. apply ascii_nat_embedding.
    + symmetry. apply andb_true_iff. split; apply Nat.leb_le; lia.
Qed.

Lemma lower_case_variant (c : ascii) : case_variant c (lower_ascii c) = true.
Proof.
  unfold case_variant, lower_ascii. cbv zeta.
  destruct ((65 <=? nat_of_ascii c) && (nat_of_ascii c <=? 90)) eqn:Hup.
  - apply andb_true_iff in Hup as [Hlo Hhi].
    apply Nat.leb_le in Hlo, Hhi.
    rewrite nat_ascii_embedding by lia.
    apply orb_true_iff. right.
    rewrite !andb_true_iff, !Nat.leb_le, Nat.eqb_eq. lia.
  - now rewrite Nat.eqb_refl.
Qed.

Lemma case_variant_ascii (c t : ascii) :
  case_variant c t = true ->
  (nat_of_ascii t <? 128) = true -> (nat_of_ascii c <? 128) = true.
Proof.
  unfold case_variant. cbv zeta.
  rewrite !orb_true_iff, !andb_true_iff, !Nat.eqb_eq, !Nat.leb_le,
    !Nat.ltb_lt.
  lia.
Qed.

Lemma anycase_lower (w t : string) :
  anycase w t = true -> asciiLowerCase w = t.
Proof.
  revert t. induction w as [| c w IH]; intros [| d t]; simpl;
    try discriminate; [reflexivity |].
  intros Hv. apply andb_true_iff in Hv as [Hc Hw].
  now rewrite (case_variant_lower _ _ Hc), (IH _ Hw).
Qed.

Lemma lower_anycase (w : string) : anycase w (asciiLowerCase w) = true.
Proof.
  induction w as [| c w IH]; simpl; [reflexivity |].
  now rewrite lower_case_variant, IH.
Qed.

Lemma anycase_ascii (w t : string) :
  anycase w t = true -> is_ascii t = true -> is_ascii w = true.
Proof.
  revert t. induction w as [| c w IH]; intros [| d t]; simpl;
    try discriminate; [reflexivity |].
  intros Hv Ht. apply andb_true_iff in Hv as [Hc Hw].
  apply andb_true_iff in Ht as [Hd Ht].
  now rewrite (case_variant_ascii _ _ Hc Hd), (IH _ Hw Ht).
Qed.

(** ** Arithmetic of the circular scan *)

Lemma mod_succ_step (n a : nat) : (a mod n + 1) mod n = (a + 1) mod n.
Proof. apply Nat.Div0.add_mod_idemp_l. Qed.

Lemma mod_wrap (n s : nat) : s < n -> (s + n) mod n = s.
Proof.
  intros H. replace (s + n) with (s + 1 * n) by lia.
  rewrite Nat.Div0.mod_add. now apply Nat.mod_small.
Qed.

Lemma mod_not_start (n s k : nat) :
  s < n -> 0 < k < n -> (s + k) mod n <> s.
Proof.
  intros Hs Hk. destruct (Nat.lt_ge_cases (s + k) n) as [Hlt | Hge].
  - rewrite Nat.mod_small by lia. lia.
  - replace (s + k) with ((s + k - n) + 1 * n) by lia.
    rewrite Nat.Div0.mod_add, Nat.mod_small by lia. lia.
Qed.

(** ** Frame facts of the rotation *)


Lemma rotate_loop_apiKeys left start now m :
  apiKeys (snd (rotate_loop left start now m)) = apiKeys m.
Proof.
  revert m. induction left as [| left IH]; intros m; simpl;
    repeat case_match; simpl; try reflexivity.
  now rewrite IH.
Qed.

Lemma rotate_loop_length left start now m :
  length (keyStatus (snd (rotate_loop left start now m)))
  = length (keyStatus m).
Proof.
  revert m. induction left as [| left IH]; intros m; simpl;
    repeat case_match; simpl; rewrite ?length_insert; try reflexivity.
  now rewrite IH.
Qed.

Lemma rotate_loop_index left start now m :
  0 < length (apiKeys m) ->
  currentKeyIndex (snd (rotate_loop left start now m)) < length (apiKeys m).
Proof.
  intros Hn.
  assert (Hidx : forall c, (c + 1) mod length (apiKeys m) < length (apiKeys m))
    by (intros c; apply Nat.mod_upper_bound; lia).
  revert m Hn Hidx. induction left as [| left IH]; intros m Hn Hidx; simpl;
    repeat case_match; simpl; try apply Hidx.
  apply (IH (set_currentKeyIndex _ m)); simpl; assumption.
Qed.

(** A status whose [quotaExceeded] flag is off is never written by the
    rotation. *)
Lemma rotate_loop_keeps_unflagged left start now m i s :
  keyStatus m !! i = Some s -> quotaExceeded s = false ->
  keyStatus (snd (rotate_loop left start now m)) !! i = Some s.
Proof.
  revert m. induction left as [| left IH]; intros m Hi Hq; simpl;
    repeat case_match; simpl in *; try assumption.
  all: try (apply IH; simpl; assumption).
  all: destruct (decide (((currentKeyIndex m + 1) mod length (apiKeys m)) = i))
      as [Heq | Hne];
    [ rewrite Heq in *; simplify_eq; rewrite Hq in *; discriminate
    | now rewrite list_lookup_insert_ne ].
Qed.

(** What the scan can do to a status: nothing, or reactivate it when it
    is flagged and its reset time has come. *)
Lemma rotate_loop_status_at left start now m i s :
  keyStatus m !! i = Some s ->
  keyStatus (snd (rotate_loop left start now m)) !! i = Some s \/
  quotaExceeded s = true /\ shouldResetKey now s = true /\
  keyStatus (snd (rotate_loop left start now m)) !! i = Some (reactivate s).
Proof.
  revert m. induction left as [| left IH]; intros m Hi; simpl;
    repeat case_match; simpl in *; try (left; assumption).
  all: try (apply IH; simpl; assumption).
  all: destruct (decide (((currentKeyIndex m + 1) mod length (apiKeys m)) = i))
      as [Heq | Hne];
    [ rewrite Heq in *; simplify_eq; right;
      match goal with Hb : _ && _ = true |- _ =>
        apply andb_true_iff in Hb as [? ?] end;
      split; [assumption |]; split; [assumption |];
      apply list_lookup_insert_eq; eapply lookup_lt_Some; eassumption
    | left; now rewrite list_lookup_insert_ne ].
Qed.

(** When the scan gives up, it has gone once round the pool: the index is
    back where it started and no status was written. *)
Lemma rotate_loop_throw left start now : forall m a x m',
  start < length (apiKeys m) ->
  length (keyStatus m) = length (apiKeys m) ->
  currentKeyIndex m = (start + a) mod length (apiKeys m) ->
  a + 1 + left = length (apiKeys m) ->
  rotate_loop left start now m = (Throw x, m') ->
  x = EKeysExhausted /\ m' = set_currentKeyIndex start m.
Proof.
  induction left as [| left IH]; intros m a x m' Hs Hlen Hcur Hsum; simpl;
    rewrite Hcur, mod_succ_step.
  - assert (Hidx : (start + a + 1) mod length (apiKeys m) = start).
    { replace (start + a + 1) with (start + length (apiKeys m)) by lia.
      now apply mod_wrap. }
    rewrite Hidx.
    destruct (keyStatus m !! start) as [st |] eqn:Hst.
    + repeat case_match; intros [= <- <-]; auto.
    + apply lookup_ge_None in Hst. lia.
  - destruct (keyStatus m !! _) as [st |] eqn:Hst.
    + repeat case_match; try (intros [= <- <-]; now auto).
      * intros Hrun.
        assert (Hnext : (start + a + 1) mod length (apiKeys m)
                        = (start + S a) mod length (apiKeys m))
          by (f_equal; lia).
        apply (IH _ (S a)) in Hrun; simpl; try assumption; lia.
      * intros [= <- <-]. split; [reflexivity |].
        unfold set_currentKeyIndex. f_equal.
        match goal with H : negb _ = false |- _ =>
          apply negb_false_iff, Nat.eqb_eq in H; exact H end.
    + apply lookup_ge_None in Hst.
      pose proof (Nat.mod_upper_bound (start + a + 1) (length (apiKeys m))).
      lia.
Qed.

Lemma rotateToNextKey_throw now m x m' :
  wf m -> rotateToNextKey now m = (Throw x, m') ->
  x = EKeysExhausted /\ m' = m.
Proof.
  intros (Hn & Hlen & Hcur) Hrun. unfold rotateToNextKey in Hrun.
  apply (rotate_loop_throw _ _ _ _ 0) in Hrun; try assumption; try lia.
  - destruct Hrun as [-> ->]. split; [reflexivity |]. now destruct m.
  - rewrite Nat.add_0_r. symmetry. now apply Nat.mod_small.
Qed.

(** A status that waits for a reset time still ahead is never the one the
    scan stops at. *)
Lemma rotate_loop_not_before left start now : forall m i s R r m',
  keyStatus m !! i = Some s -> quotaExceeded s = true ->
  resetTime s = Some R -> (now < R)%Z ->
  rotate_loop left start now m = (Normal r, m') ->
  currentKeyIndex m' <> i.
Proof.
  induction left as [| left IH]; intros m i s R r m' Hi Hq HR Hlt; simpl;
    destruct (decide ((currentKeyIndex m + 1) mod length (apiKeys m) = i))
      as [Heq | Hne].
  1, 3: rewrite Heq, Hi; unfold shouldResetKey;
    rewrite Hq, HR, andb_false_r; simpl;
    replace (R <=? now)%Z with false by (symmetry; apply Z.leb_gt; lia);
    simpl; try discriminate.
  - case_match; [| discriminate]. intros Hrun.
    eapply IH in Hrun; eauto.
  - repeat case_match; try discriminate; intros [= <- <-]; simpl; assumption.
  - repeat case_match; try discriminate;
      try (intros [= <- <-]; simpl; assumption).
    intros Hrun. eapply IH in Hrun; eauto.
Qed.

(** The scan steps over [j - 1] statuses and stops at the [j]-th, which it
    reactivates. *)
Lemma rotate_loop_reaches now start : forall j left m a st,
  start < length (apiKeys m) ->
  currentKeyIndex m = (start + a) mod length (apiKeys m) ->
  a + 1 + left = length (apiKeys m) ->
  1 <= j -> a + j <= length (apiKeys m) ->
  (forall d, 1 <= d < j -> exists s,
      keyStatus m !! ((start + a + d) mod length (apiKeys m)) = Some s /\
      passedOver now s = true) ->
  keyStatus m !! ((start + a + j) mod length (apiKeys m)) = Some st ->
  passedOver now st = false ->
  rotate_loop left start now m =
    let t := (start + a + j) mod length (apiKeys m) in
    if isActive st && negb (quotaExceeded st)
    then (Normal (key st), set_currentKeyIndex t m)
    else (Normal (key st),
          set_status t (reactivate st) (set_currentKeyIndex t m)).
Proof.
  induction j as [| j IH]; [lia |].
  intros left m a st Hs Hcur Hsum _ Hj Hskip Hst Hpass.
  destruct (decide (j = 0)) as [-> | Hj0].
  - clear IH Hskip. destruct left; simpl; rewrite Hcur, mod_succ_step, Hst;
      unfold passedOver in Hpass;
      destruct (isActive st && negb (quotaExceeded st)); simpl in *;
      try reflexivity; apply negb_false_iff in Hpass; rewrite Hpass;
      reflexivity.
  - destruct (Hskip 1 ltac:(lia)) as (s & Hs1 & Hp1).
    destruct left as [| left]; [lia |].
    simpl. rewrite Hcur, mod_succ_step, Hs1.
    unfold passedOver in Hp1. apply andb_true_iff in Hp1 as [Hp1 Hp2].
    apply negb_true_iff in Hp1, Hp2. rewrite Hp1, Hp2.
    assert (Hne : (start + a + 1) mod length (apiKeys m) <> start).
    { rewrite <- Nat.add_assoc. apply mod_not_start; lia. }
    apply Nat.eqb_neq in Hne. rewrite Hne. simpl.
    rewrite (IH left (set_currentKeyIndex _ m) (S a) st); simpl;
      try assumption; try lia.
    + replace (start + S a + j) with (start + a + S j) by lia. reflexivity.
    + f_equal. lia.
    + intros d Hd. destruct (Hskip (S d) ltac:(lia)) as (s' & Hs' & Hp').
      exists s'. split; [| assumption].
      replace (start + S a + d) with (start + a + S d) by lia. assumption.
    + replace (start + S a + j) with (start + a + S j) by lia. assumption.
Qed.

(** ** Well-formedness is an invariant *)

Lemma wf_constructor keys m : constructor keys = Normal m -> wf m.
Proof.
  destruct keys as [| k keys]; [discriminate |].
  intros [= <-]. unfold wf. simpl. rewrite length_map. lia.
Qed.

Lemma wf_set_status i s m : wf m -> wf (set_status i s m).
Proof.
  unfold wf. simpl. rewrite length_insert. tauto.
Qed.

Lemma wf_lookup m :
  wf m -> exists status, keyStatus m !! currentKeyIndex m = Some status.
Proof.
  intros (_ & Hlen & Hcur).
  destruct (lookup_lt_is_Some_2 (keyStatus m) (currentKeyIndex m)) as [s Hs];
    [lia | eauto].
Qed.

Lemma wf_rotateToNextKey now m : wf m -> wf (snd (rotateToNextKey now m)).
Proof.
  intros (Hn & Hlen & Hcur). unfold wf, rotateToNextKey.
  rewrite rotate_loop_apiKeys, rotate_loop_length.
  auto using rotate_loop_index.
Qed.

Ltac run_method :=
  unfold bind, getIndex, getStatus, putStatus, ret, throw; simpl.

Lemma wf_getCurrentKey now m : wf m -> wf (snd (getCurrentKey now m)).
Proof.
  intros H. unfold getCurrentKey. run_method.
  destruct (keyStatus m !! currentKeyIndex m); simpl;
    auto using wf_set_status.
Qed.

Lemma wf_markCurrentKeyAsExhausted zone error now m :
  wf m -> wf (snd (markCurrentKeyAsExhausted zone error now m)).
Proof.
  intros H. unfold markCurrentKeyAsExhausted. run_method.
  destruct (keyStatus m !! currentKeyIndex m); simpl; [| assumption].
  now apply wf_rotateToNextKey, wf_set_status.
Qed.

Lemma wf_markCurrentKeyError error now m :
  wf m -> wf (snd (markCurrentKeyError error now m)).
Proof.
  intros H. unfold markCurrentKeyError. run_method.
  destruct (keyStatus m !! currentKeyIndex m) as [st |]; simpl;
    [| assumption].
  destruct (failCount st) as [| [| n]]; simpl; auto using wf_set_status.
  now apply wf_rotateToNextKey, wf_set_status.
Qed.

Lemma wf_run_op `{JS : JsEngine} zone op m : wf m -> wf (run_op zone op m).
Proof.
  intros H. destruct op; simpl.
  - now apply wf_getCurrentKey.
  - now apply wf_markCurrentKeyAsExhausted.
  - now apply wf_markCurrentKeyError.
  - unfold resetCurrentKeyErrors. run_method.
    destruct (keyStatus m !! currentKeyIndex m); simpl;
      auto using wf_set_status.
  - now apply wf_rotateToNextKey.
  - unfold handleApiError. repeat case_match;
      auto using wf_getCurrentKey, wf_markCurrentKeyError,
        wf_markCurrentKeyAsExhausted.
  - unfold resetKey. case_match; simpl; [assumption |]. run_method.
    destruct (keyStatus m !! Z.to_nat keyIndex); simpl;
      auto using wf_set_status.
  - unfold wf in *. simpl. now rewrite length_map.
Qed.

Lemma reachable_wf `{JS : JsEngine} zone m : reachable zone m -> wf m.
Proof.
  induction 1 as [keys m Hc | op m _ IH].
  - eauto using wf_constructor.
  - now apply wf_run_op.
Qed.

(** ** The current key (C10) *)

(** C10.  In every reachable state of the pool, [getCurrentKey] returns the
    key stored at the current index whatever the flags of that status say
    (no eligibility test: the statement holds for every status, exhausted
    or inactive ones included), and the only thing it writes is the
    [lastUsed] field of that status: the index, the list of keys, every
    other field of the status and every other status are as before. *)
Theorem getCurrentKey_frame `{JS : JsEngine} zone m now :
  reachable zone m ->
  exists status,
    keyStatus m !! currentKeyIndex m = Some status /\
    let touched :=
      mkKeyStatus (key status) (isActive status) (failCount status)
        (lastError status) (Some now) (quotaExceeded status)
        (resetTime status) in
    let m' := snd (getCurrentKey now m) in
    fst (getCurrentKey now m) = Normal (key status) /\
    currentKeyIndex m' = currentKeyIndex m /\
    apiKeys m' = apiKeys m /\
    keyStatus m' !! currentKeyIndex m = Some touched /\
    (forall i, i <> currentKeyIndex m -> keyStatus m' !! i = keyStatus m !! i).
Proof.
  intros Hr. pose proof (reachable_wf _ _ Hr) as Hwf.
  destruct (wf_lookup _ Hwf) as [status Hs]. exists status.
  split; [assumption |].
  unfold getCurrentKey. run_method. rewrite Hs. simpl.
  repeat split.
  - apply list_lookup_insert_eq. destruct Hwf as (_ & Hlen & Hcur). lia.
  - intros i Hi. now apply list_lookup_insert_ne.
Qed.

Lemma getCurrentKey_frame_witness :
  exists status,
    keyStatus (run_op Fixtures.utc (OpMarkExhausted "quota" Fixtures.t0)
                 Fixtures.pool1) !! 0 = Some status /\
    status_of status = QuotaExceeded /\
    fst (getCurrentKey Fixtures.t0
           (run_op Fixtures.utc (OpMarkExhausted "quota" Fixtures.t0)
              Fixtures.pool1)) = Normal (key status).
Proof.
  destruct (getCurrentKey_frame Fixtures.utc
              (run_op Fixtures.utc (OpMarkExhausted "quota" Fixtures.t0)
                 Fixtures.pool1) Fixtures.t0) as (status & Hs & Hk & _).
  - apply reachable_step.
    apply (reachable_init Fixtures.utc ["K0"%string]). reflexivity.
  - exists status. split; [exact Hs |]. split; [| exact Hk].
    vm_compute in Hs. injection Hs as <-. reflexivity.
Defined.

(** ** Marking the current key as exhausted (C9) *)

(** C9.  When [markCurrentKeyAsExhausted] throws, the exception is the
    exhaustion error of the rotation and the state left behind is the state
    before the call with the current status marked: [quotaExceeded] set,
    [isActive] cleared, [lastError] and [resetTime] set.  Nothing is rolled
    back, and the current index is the one before the call, a valid index,
    at a status that is not Active. *)
Theorem markCurrentKeyAsExhausted_commits zone m error now x m' :
  wf m ->
  markCurrentKeyAsExhausted zone error now m = (Throw x, m') ->
  exists status,
    keyStatus m !! currentKeyIndex m = Some status /\
    let marked :=
      mkKeyStatus (key status) false (failCount status) (Some error)
        (lastUsed status) true (Some (calculateResetTime zone now)) in
    x = EKeysExhausted /\
    m' = set_status (currentKeyIndex m) marked m /\
    currentKeyIndex m' = currentKeyIndex m /\
    currentKeyIndex m' < length (apiKeys m') /\
    keyStatus m' !! currentKeyIndex m' = Some marked /\
    status_of marked = QuotaExceeded /\
    isActive marked = false /\
    lastError marked = Some error /\
    resetTime marked = Some (calculateResetTime zone now).
Proof.
  intros Hwf Hrun. destruct (wf_lookup _ Hwf) as [status Hs].
  exists status. split; [assumption |].
  unfold markCurrentKeyAsExhausted in Hrun. revert Hrun. run_method.
  rewrite Hs. simpl. intros Hrun.
  apply rotateToNextKey_throw in Hrun; [| now apply wf_set_status].
  destruct Hrun as [-> ->]. destruct Hwf as (Hn & Hlen & Hcur).
  simpl. repeat split; try assumption.
  apply list_lookup_insert_eq. lia.
Qed.

Lemma markCurrentKeyAsExhausted_commits_witness :
  exists status,
    keyStatus Fixtures.pool1 !! 0 = Some status /\
    snd (markCurrentKeyAsExhausted Fixtures.utc "quota" Fixtures.t0
           Fixtures.pool1)
    = set_status 0
        (mkKeyStatus (key status) false (failCount status) (Some "quota"%string)
           (lastUsed status) true
           (Some (calculateResetTime Fixtures.utc Fixtures.t0)))
        Fixtures.pool1.
Proof.
  destruct (markCurrentKeyAsExhausted_commits Fixtures.utc Fixtures.pool1
              "quota" Fixtures.t0 EKeysExhausted
              (snd (markCurrentKeyAsExhausted Fixtures.utc "quota"
                      Fixtures.t0 Fixtures.pool1)))
    as (status & Hs & _ & Hm & _).
  - unfold wf. simpl. lia.
  - reflexivity.
  - exists status. split; [exact Hs | exact Hm].
Defined.

(** ** Counting failures (C7) *)

Lemma set_status_twice i s1 s2 m :
  set_status i s2 (set_status i s1 m) = set_status i s2 m.
Proof. unfold set_status. simpl. now rewrite list_insert_insert_eq. Qed.

Lemma lookup_set_status i s m :
  i < length (keyStatus m) -> keyStatus (set_status i s m) !! i = Some s.
Proof. intros H. simpl. now apply list_lookup_insert_eq. Qed.

(** One call of [markCurrentKeyError], by the count it reaches. *)
Lemma markCurrentKeyError_step m error now status :
  keyStatus m !! currentKeyIndex m = Some status ->
  let bumped active :=
    mkKeyStatus (key status) active (S (failCount status)) (Some error)
      (lastUsed status) (quotaExceeded status) (resetTime status) in
  (S (failCount status) < 3 ->
   markCurrentKeyError error now m
   = (Normal (key status),
      set_status (currentKeyIndex m) (bumped (isActive status)) m)) /\
  (3 <= S (failCount status) ->
   markCurrentKeyError error now m
   = rotateToNextKey now (set_status (currentKeyIndex m) (bumped false) m)).
Proof.
  intros Hs bumped. unfold markCurrentKeyError. run_method. rewrite Hs.
  split; intros Hc.
  - destruct (failCount status) as [| [| n]]; simpl; try reflexivity. lia.
  - destruct (failCount status) as [| [| n]]; simpl; try lia. reflexivity.
Qed.

(** C7.  [markCurrentKeyError] adds one to [failCount] of the current
    status and sets its [lastError].  While the new count is below 3 the
    index does not move and the key of the current status is returned, its
    other fields untouched.  On the call that brings the count to 3 the
    status gets [isActive = false] and [rotateToNextKey] runs in that same
    call, from the state in which the write has been made.  For a key that
    is not flagged as out of quota that is the status Disabled, and it is
    still Disabled when the call is over.  For a key that is flagged (the
    current key can be: the index stays on it when a rotation finds no
    other key) the flag is kept, so the status is QuotaExceeded, and after
    the call it is either that or, when the reset time has come and the
    scan reaches the key, Active with a count of 0: never Disabled.  In
    particular, from a count of 0, the first two calls return the same key
    and the third one writes [isActive = false] and rotates. *)
Theorem markCurrentKeyError_threshold m status e1 e2 e3 t1 t2 t3 :
  keyStatus m !! currentKeyIndex m = Some status ->
  let i := currentKeyIndex m in
  let bumped error active :=
    mkKeyStatus (key status) active (S (failCount status)) (Some error)
      (lastUsed status) (quotaExceeded status) (resetTime status) in
  (S (failCount status) < 3 ->
   markCurrentKeyError e1 t1 m
   = (Normal (key status), set_status i (bumped e1 (isActive status)) m)) /\
  (3 <= S (failCount status) ->
   markCurrentKeyError e1 t1 m
   = rotateToNextKey t1 (set_status i (bumped e1 false) m) /\
   isActive (bumped e1 false) = false /\
   (quotaExceeded status = false ->
    status_of (bumped e1 false) = Disabled /\
    keyStatus (snd (markCurrentKeyError e1 t1 m)) !! i
    = Some (bumped e1 false)) /\
   (quotaExceeded status = true ->
    status_of (bumped e1 false) = QuotaExceeded /\
    (keyStatus (snd (markCurrentKeyError e1 t1 m)) !! i
     = Some (bumped e1 false) \/
     shouldResetKey t1 status = true /\
     keyStatus (snd (markCurrentKeyError e1 t1 m)) !! i
     = Some (reactivate (bumped e1 false))) /\
    forall s', keyStatus (snd (markCurrentKeyError e1 t1 m)) !! i = Some s' ->
               status_of s' <> Disabled)) /\
  (failCount status = 0 ->
   let m1 := snd (markCurrentKeyError e1 t1 m) in
   let m2 := snd (markCurrentKeyError e2 t2 m1) in
   let disabled :=
     mkKeyStatus (key status) false 3 (Some e3) (lastUsed status)
       (quotaExceeded status) (resetTime status) in
   fst (markCurrentKeyError e1 t1 m) = Normal (key status) /\
   fst (markCurrentKeyError e2 t2 m1) = Normal (key status) /\
   currentKeyIndex m2 = i /\
   markCurrentKeyError e3 t3 m2
   = rotateToNextKey t3 (set_status i disabled m)).
Proof.
  intros Hs i bumped.
  assert (Hi : i < length (keyStatus m)) by (eapply lookup_lt_Some; eauto).
  destruct (markCurrentKeyError_step m e1 t1 status Hs) as [Hlow Hhigh].
  split; [exact Hlow |]. split.
  - intros Hc. specialize (Hhigh Hc). split; [exact Hhigh |].
    split; [reflexivity |]. split.
    + intros Hq. split.
      * unfold status_of. simpl. now rewrite Hq.
      * rewrite Hhigh. unfold rotateToNextKey.
        apply rotate_loop_keeps_unflagged; [| exact Hq].
        now apply lookup_set_status.
    + intros Hq.
      assert (Hflag : status_of (bumped e1 false) = QuotaExceeded)
        by (unfold status_of; simpl; now rewrite Hq).
      split; [exact Hflag |].
      assert (Hor : keyStatus (snd (markCurrentKeyError e1 t1 m)) !! i
                    = Some (bumped e1 false) \/
                    shouldResetKey t1 status = true /\
                    keyStatus (snd (markCurrentKeyError e1 t1 m)) !! i
                    = Some (reactivate (bumped e1 false))).
      { rewrite Hhigh. unfold rotateToNextKey.
        destruct (rotate_loop_status_at
                    (length (apiKeys (set_status i (bumped e1 false) m)) - 1)
                    (currentKeyIndex (set_status i (bumped e1 false) m)) t1
                    (set_status i (bumped e1 false) m) i (bumped e1 false)
                    (lookup_set_status i _ m Hi))
          as [Hsame | (_ & Hreset & Hre)].
        - now left.
        - right. split; [exact Hreset | exact Hre]. }
      split; [exact Hor |].
      intros s' Hs'.
      destruct Hor as [Hsame | [_ Hre]]; rewrite Hs' in *; simplify_eq.
      * rewrite Hflag. discriminate.
      * discriminate.
  - intros H0. subst i bumped. cbv zeta beta in *.
    rewrite Hlow by lia. cbn [fst snd].
    set (s1 := mkKeyStatus (key status) (isActive status)
                 (S (failCount status)) (Some e1) (lastUsed status)
                 (quotaExceeded status) (resetTime status)).
    assert (Hs1 : keyStatus (set_status (currentKeyIndex m) s1 m)
                    !! currentKeyIndex (set_status (currentKeyIndex m) s1 m)
                  = Some s1)
      by now apply lookup_set_status.
    destruct (markCurrentKeyError_step _ e2 t2 s1 Hs1) as [Hlow2 _].
    change (currentKeyIndex (set_status (currentKeyIndex m) s1 m))
      with (currentKeyIndex m) in Hlow2.
    rewrite Hlow2 by (simpl; lia). cbn [fst snd].
    rewrite set_status_twice.
    set (s2 := mkKeyStatus (key s1) (isActive s1) (S (failCount s1))
                 (Some e2) (lastUsed s1) (quotaExceeded s1) (resetTime s1)).
    assert (Hs2 : keyStatus (set_status (currentKeyIndex m) s2 m)
                    !! currentKeyIndex (set_status (currentKeyIndex m) s2 m)
                  = Some s2)
      by now apply lookup_set_status.
    destruct (markCurrentKeyError_step _ e3 t3 s2 Hs2) as [_ Hhigh3].
    change (currentKeyIndex (set_status (currentKeyIndex m) s2 m))
      with (currentKeyIndex m) in Hhigh3.
    rewrite Hhigh3 by (simpl; lia).
    rewrite set_status_twice. subst s2 s1. simpl. rewrite H0.
    repeat split; reflexivity.
Qed.

Lemma markCurrentKeyError_threshold_witness :
  fst (markCurrentKeyError "bad key" Fixtures.t0 Fixtures.pool3) = Normal "K0"%string /\
  currentKeyIndex
    (snd (markCurrentKeyError "bad key" Fixtures.t0
       (snd (markCurrentKeyError "bad key" Fixtures.t0 Fixtures.pool3)))) = 0 /\
  markCurrentKeyError "bad key" Fixtures.t0
    (snd (markCurrentKeyError "bad key" Fixtures.t0
       (snd (markCurrentKeyError "bad key" Fixtures.t0 Fixtures.pool3))))
  = rotateToNextKey Fixtures.t0
      (set_status 0
         (mkKeyStatus "K0" false 3 (Some "bad key"%string) None false None)
         Fixtures.pool3).
Proof.
  destruct (markCurrentKeyError_threshold Fixtures.pool3
              (initialStatus "K0") "bad key" "bad key" "bad key"
              Fixtures.t0 Fixtures.t0 Fixtures.t0 eq_refl)
    as (_ & _ & H3).
  destruct (H3 eq_refl) as (H1 & _ & Hi & Hrot).
  split; [exact H1 |]. split; [exact Hi | exact Hrot].
Defined.

(** The third failure in a row that does not disable.  The only key of the
    pool has run out of quota: the rotation found no other key and the
    index stayed on it.  Three failures are then reported for it.  When the
    third comes before the reset time the call throws and the key is left
    QuotaExceeded (with a count of 3); when it comes at the reset time the
    rotation of that same call reactivates the key: the call returns it,
    Active, with a count of 0.  In neither case is the key Disabled. *)
Lemma markCurrentKeyError_quota_flagged :
  reachable Fixtures.utc MoreFixtures.pool1_out /\
  keyStatus MoreFixtures.pool1_out !! currentKeyIndex MoreFixtures.pool1_out
  = Some (mkKeyStatus "K0" false 0 (Some "quota"%string) None true
            (Some 1710144000000%Z)) /\
  failCount
    <$> keyStatus
          (snd (markCurrentKeyError "bad key" (Fixtures.t0 + 2000)
                  (snd (markCurrentKeyError "bad key" (Fixtures.t0 + 1000)
                          MoreFixtures.pool1_out)))) !! 0
  = Some 2 /\
  MoreFixtures.three_errors (Fixtures.t0 + 3000) MoreFixtures.pool1_out
  = (Throw EKeysExhausted,
     mkKeyManager ["K0"%string] 0
       [mkKeyStatus "K0" false 3 (Some "bad key"%string) None true
          (Some 1710144000000%Z)]) /\
  status_of (mkKeyStatus "K0" false 3 (Some "bad key"%string) None true
               (Some 1710144000000%Z)) = QuotaExceeded /\
  MoreFixtures.three_errors 1710144000000 MoreFixtures.pool1_out
  = (Normal "K0"%string,
     mkKeyManager ["K0"%string] 0
       [mkKeyStatus "K0" true 0 (Some "bad key"%string) None false
          (Some 1710144000000%Z)]) /\
  status_of (mkKeyStatus "K0" true 0 (Some "bad key"%string) None false
               (Some 1710144000000%Z)) = Active /\
  QuotaExceeded <> Disabled /\ Active <> Disabled.
Proof.
  split.
  - apply (reachable_step Fixtures.utc
             (OpMarkExhausted "quota" Fixtures.t0) Fixtures.pool1).
    now apply (reachable_init Fixtures.utc ["K0"%string]).
  - repeat split; try reflexivity; discriminate.
Qed.

(** ** Waiting for the reset time (C2) *)

Lemma rotateToNextKey_reaches now m j st :
  wf m ->
  let n := length (apiKeys m) in
  let t := (currentKeyIndex m + j) mod n in
  1 <= j <= n ->
  (forall d, 1 <= d < j -> exists s,
      keyStatus m !! ((currentKeyIndex m + d) mod n) = Some s /\
      passedOver now s = true) ->
  keyStatus m !! t = Some st ->
  passedOver now st = false ->
  rotateToNextKey now m =
    if isActive st && negb (quotaExceeded st)
    then (Normal (key st), set_currentKeyIndex t m)
    else (Normal (key st), set_status t (reactivate st) (set_currentKeyIndex t m)).
Proof.
  intros (Hn & Hlen & Hcur) n t Hj Hskip Hst Hpass. unfold rotateToNextKey.
  rewrite (rotate_loop_reaches now (currentKeyIndex m) j
             (length (apiKeys m) - 1) m 0 st); try assumption; try lia.
  - cbv zeta. rewrite Nat.add_0_r. reflexivity.
  - rewrite Nat.add_0_r. symmetry. now apply Nat.mod_small.
  - intros d Hd. rewrite Nat.add_0_r. now apply Hskip.
  - rewrite Nat.add_0_r. exact Hst.
Qed.

(** C2, as the code has it.  A status with [quotaExceeded] set and reset
    time [R] is never the one [rotateToNextKey] stops at while [now < R].
    From [R] on, when the circular scan from the current index gets to it
    (the statuses before it being passed over), the rotation reactivates
    it and selects it: [isActive] set, [quotaExceeded] cleared (status
    Active), [failCount] 0.  The reset time is not cleared: [resetTime],
    like [lastError] and [lastUsed], keeps the value it had. *)
Theorem rotateToNextKey_reset_time m now i st R :
  wf m ->
  keyStatus m !! i = Some st ->
  quotaExceeded st = true -> resetTime st = Some R ->
  ((now < R)%Z ->
   forall r m', rotateToNextKey now m = (Normal r, m') ->
                currentKeyIndex m' <> i) /\
  ((R <= now)%Z ->
   forall j, 1 <= j <= length (apiKeys m) ->
     i = (currentKeyIndex m + j) mod length (apiKeys m) ->
     (forall d, 1 <= d < j -> exists s,
         keyStatus m !! ((currentKeyIndex m + d) mod length (apiKeys m))
         = Some s /\ passedOver now s = true) ->
     rotateToNextKey now m
     = (Normal (key st),
        set_status i (reactivate st) (set_currentKeyIndex i m)) /\
     status_of (reactivate st) = Active /\
     failCount (reactivate st) = 0 /\
     resetTime (reactivate st) = Some R /\
     lastError (reactivate st) = lastError st).
Proof.
  intros Hwf Hi Hq HR. split.
  - intros Hlt r m' Hrun. unfold rotateToNextKey in Hrun.
    eapply rotate_loop_not_before; eauto.
  - intros Hge j Hj -> Hskip.
    assert (Hpass : passedOver now st = false).
    { unfold passedOver, shouldResetKey. rewrite Hq, HR. simpl.
      replace (R <=? now)%Z with true by (symmetry; apply Z.leb_le; lia).
      apply andb_false_r. }
    rewrite (rotateToNextKey_reaches now m j st Hwf Hj Hskip Hi Hpass).
    rewrite Hq, andb_false_r. repeat split. simpl. exact HR.
Qed.

Lemma rotateToNextKey_reset_time_witness :
  rotateToNextKey Fixtures.t0 Fixtures.pool_waiting
  = (Normal "K1"%string,
     set_status 1
       (mkKeyStatus "K1" true 0 (Some "quotaExceeded"%string) None false
          (Some Fixtures.t0))
       (set_currentKeyIndex 1 Fixtures.pool_waiting)) /\
  currentKeyIndex (snd (rotateToNextKey (Fixtures.t0 - 1) Fixtures.pool_waiting))
  <> 1.
Proof.
  assert (Hwf : wf Fixtures.pool_waiting) by (unfold wf; simpl; lia).
  pose proof (rotateToNextKey_reset_time Fixtures.pool_waiting Fixtures.t0 1
                (mkKeyStatus "K1" false 2 (Some "quotaExceeded"%string) None
                   true (Some Fixtures.t0))
                Fixtures.t0 Hwf eq_refl eq_refl eq_refl) as [_ Hfrom].
  pose proof (rotateToNextKey_reset_time Fixtures.pool_waiting
                (Fixtures.t0 - 1) 1
                (mkKeyStatus "K1" false 2 (Some "quotaExceeded"%string) None
                   true (Some Fixtures.t0))
                Fixtures.t0 Hwf eq_refl eq_refl eq_refl) as [Hbefore _].
  assert (Hj : 1 <= 1 <= length (apiKeys Fixtures.pool_waiting))
    by (simpl; lia).
  split.
  - refine (proj1 (Hfrom _ 1 Hj eq_refl _)).
    + apply Z.le_refl.
    + intros d Hd. lia.
  - refine (Hbefore _ "K0"%string _ eq_refl). unfold Fixtures.t0. lia.
Defined.

(** C2 as the specification words it fails on one point: the reactivation
    does not clear the reset time.  Two keys, the second exhausted with a
    reset time that has come: the rotation selects it, Active again and
    with no failures, and its [resetTime] is still there. *)
Lemma rotateToNextKey_keeps_resetTime :
  let m' := snd (rotateToNextKey Fixtures.t0 Fixtures.pool_waiting) in
  fst (rotateToNextKey Fixtures.t0 Fixtures.pool_waiting) = Normal "K1"%string /\
  currentKeyIndex m' = 1 /\
  exists st, keyStatus m' !! 1 = Some st /\
             status_of st = Active /\ failCount st = 0 /\
             resetTime st = Some Fixtures.t0 /\ resetTime st <> None.
Proof.
  simpl. repeat split.
  eexists. split; [reflexivity |]. repeat split. discriminate.
Qed.

(** ** Round robin (C3) *)

Lemma status_of_Active s :
  status_of s = Active <-> isActive s = true /\ quotaExceeded s = false.
Proof.
  unfold status_of. destruct (quotaExceeded s), (isActive s); split;
    try discriminate; try tauto; intros [? ?]; discriminate.
Qed.

Lemma markCurrentKeyAsExhausted_next zone error now m c st s1 :
  wf m -> currentKeyIndex m = c -> c + 1 < length (apiKeys m) ->
  keyStatus m !! c = Some st ->
  keyStatus m !! (c + 1) = Some s1 -> status_of s1 = Active ->
  markCurrentKeyAsExhausted zone error now m
  = (Normal (key s1),
     set_currentKeyIndex (c + 1)
       (set_status c
          (mkKeyStatus (key st) false (failCount st) (Some error)
             (lastUsed st) true (Some (calculateResetTime zone now))) m)).
Proof.
  intros Hwf Hc Hlt Hst Hs1 Hact. subst c.
  unfold markCurrentKeyAsExhausted. run_method. rewrite Hst. simpl.
  apply status_of_Active in Hact as [Ha Hq].
  set (m1 := set_status _ _ m).
  assert (Hwf1 : wf m1) by now apply wf_set_status.
  assert (Hmod : (currentKeyIndex m1 + 1) mod length (apiKeys m1)
                 = currentKeyIndex m + 1)
    by (simpl; apply Nat.mod_small; lia).
  rewrite (rotateToNextKey_reaches now m1 1 s1 Hwf1).
  - cbv zeta. rewrite Hmod, Ha, Hq. reflexivity.
  - destruct Hwf1. lia.
  - intros d Hd. lia.
  - rewrite Hmod. simpl. rewrite list_lookup_insert_ne by lia. exact Hs1.
  - unfold passedOver. now rewrite Ha, Hq.
Qed.

Lemma exhaust_calls_log zone : forall calls m c,
  wf m -> currentKeyIndex m = c ->
  c + length calls <= length (apiKeys m) ->
  (forall i s, c < i -> keyStatus m !! i = Some s -> status_of s = Active) ->
  let log := fst (exhaust_calls zone calls m) in
  map fst log = seq c (length calls) /\
  (forall k s, k < length calls -> keyStatus m !! (c + k + 1) = Some s ->
               log !! k = Some (c + k, Normal (key s))).
Proof.
  induction calls as [| [error now] calls IH]; intros m c Hwf Hc Hlen Hact.
  - simpl. split; [reflexivity |]. intros k s Hk. lia.
  - simpl in Hlen.
    assert (Hst : exists st, keyStatus m !! c = Some st).
    { apply lookup_lt_is_Some_2. destruct Hwf as (_ & Hl & _). lia. }
    destruct Hst as [st Hst].
    destruct (Nat.lt_ge_cases (c + 1) (length (apiKeys m))) as [Hlt | Hge].
    + assert (Hs1 : exists s1, keyStatus m !! (c + 1) = Some s1).
      { apply lookup_lt_is_Some_2. destruct Hwf as (_ & Hl & _). lia. }
      destruct Hs1 as [s1 Hs1].
      assert (Ha1 : status_of s1 = Active) by (apply (Hact (c + 1) s1); [lia | exact Hs1]).
      simpl.
      rewrite (markCurrentKeyAsExhausted_next zone error now m c st s1)
        by assumption.
      set (m1 := set_currentKeyIndex (c + 1) _).
      assert (Hwf1 : wf m1).
      { destruct Hwf as (Hn & Hl & Hi). unfold wf, m1. simpl.
        rewrite length_insert. lia. }
      assert (Hother : forall i, i <> c -> keyStatus m1 !! i = keyStatus m !! i).
      { intros i Hi. unfold m1. simpl. now apply list_lookup_insert_ne. }
      destruct (IH m1 (c + 1) Hwf1 eq_refl) as [Hseq Hres].
      * unfold m1. simpl. lia.
      * intros i s Hi His. rewrite Hother in His by lia.
        apply (Hact i s); [lia | exact His].
      * destruct (exhaust_calls zone calls m1) as [log m2]. simpl in *.
        split.
        -- rewrite Hc, Hseq. f_equal. f_equal. lia.
        -- intros [| k] s Hk Hs.
           ++ simpl. rewrite Hc. rewrite Nat.add_0_r in *.
              rewrite Hs1 in Hs. now injection Hs as <-.
           ++ simpl.
              rewrite (Hres k s); [do 2 f_equal; lia | lia |].
              rewrite Hother by lia. rewrite <- Hs. f_equal. lia.
    + assert (calls = []) as -> by (destruct calls; [reflexivity | simpl in Hlen; lia]).
      simpl. destruct (markCurrentKeyAsExhausted zone error now m) as [r m1].
      simpl. split; [now rewrite Hc |].
      intros k s Hk Hs. apply lookup_lt_Some in Hs.
      destruct Hwf as (_ & Hl & _). lia.
Qed.

(** C3.  From a pool whose statuses are all Active and whose current index
    is 0, a run of as many [markCurrentKeyAsExhausted] calls as there are
    keys (whatever the errors and the clock) is made on the indices
    0, 1, ..., N-1 in this order: every key is the current one of exactly
    one call, and no key comes twice.  Each call but the last returns the
    key that follows in the order of the pool. *)
Theorem markCurrentKeyAsExhausted_round_robin zone calls m :
  wf m -> currentKeyIndex m = 0 ->
  (forall i s, keyStatus m !! i = Some s -> status_of s = Active) ->
  length calls = length (apiKeys m) ->
  let log := fst (exhaust_calls zone calls m) in
  map fst log = seq 0 (length (apiKeys m)) /\
  NoDup (map fst log) /\
  (forall i, i < length (apiKeys m) -> i ∈ map fst log) /\
  (forall k s, keyStatus m !! (k + 1) = Some s ->
               log !! k = Some (k, Normal (key s))).
Proof.
  intros Hwf Hc Hact Hlen.
  destruct (exhaust_calls_log zone calls m 0 Hwf Hc) as [Hseq Hres].
  - lia.
  - intros i s _ Hs. eauto.
  - cbv zeta. rewrite Hlen in Hseq. split; [exact Hseq |].
    rewrite Hseq. split; [apply NoDup_ListNoDup, List.seq_NoDup |].
    split.
    + intros i Hi. apply list_elem_of_In, in_seq. lia.
    + intros k s Hs. apply (Hres k s); [| exact Hs].
      apply lookup_lt_Some in Hs. destruct Hwf as (_ & Hl & _). lia.
Qed.

Lemma markCurrentKeyAsExhausted_round_robin_witness :
  map fst (fst (exhaust_calls Fixtures.utc
                  [("q"%string, Fixtures.t0); ("q"%string, Fixtures.t0);
                   ("q"%string, Fixtures.t0)] Fixtures.pool3))
  = [0; 1; 2].
Proof.
  refine (proj1 (markCurrentKeyAsExhausted_round_robin Fixtures.utc
                   [("q"%string, Fixtures.t0); ("q"%string, Fixtures.t0);
                    ("q"%string, Fixtures.t0)] Fixtures.pool3 _ eq_refl _ eq_refl)).
  - unfold wf. simpl. lia.
  - intros [| [| [| i]]] s; simpl; intros [= <-]; reflexivity.
Defined.

(** ** The reset time (C8) *)

Section ResetTime.
Local Open Scope Z_scope.

(** On a host whose zone never changes its offset (a server on UTC, say),
    [calculateResetTime] gives the next 08:00:00.000 UTC: strictly after
    [now], at most a day away. *)
Lemma calculateResetTime_fixedZone off now :
  let r := calculateResetTime (fixedZone off) now in
  now < r /\ TimeWithinDay r = 8 * msPerHour /\ r - now <= msPerDay.
Proof.
  unfold calculateResetTime, setDate_getDate_plus_1, UTC, LocalTime,
    setUTCHours_8, Day, TimeWithinDay, msPerHour, msPerDay. simpl.
  pose proof (Z.div_mod now 86400000 ltac:(lia)) as Hdm.
  pose proof (Z.mod_pos_bound now 86400000 ltac:(lia)) as Hb.
  set (d := now / 86400000) in *. set (r := now mod 86400000) in *.
  change (8 * 3600000) with 28800000.
  destruct (Z.leb_spec (d * 86400000 + 28800000) now) as [Hle | Hgt].
  - replace (d * 86400000 + 28800000 + off + 86400000 - off)
      with (28800000 + (d + 1) * 86400000) by lia.
    rewrite Z.mod_add by lia. rewrite Z.mod_small by lia. lia.
  - replace (d * 86400000 + 28800000) with (28800000 + d * 86400000) by lia.
    rewrite Z.mod_add by lia. rewrite Z.mod_small by lia. lia.
Qed.

(** C8, where the code departs from it.  The day is advanced with
    [setDate(getDate() + 1)], which counts in the local time of the host.
    On a host in America/Los_Angeles, at 2024-03-10T09:00:00Z (the night the
    clocks go forward) the reset time computed is 2024-03-11T07:00:00Z: its
    UTC time of day is 07:00, not 08:00.  At 2024-11-03T08:00:00Z (the night
    they go back) it is 2024-11-04T09:00:00Z, 25 hours ahead. *)
Theorem calculateResetTime_local_day :
  calculateResetTime losAngeles2024 1710061200000 = 1710140400000 /\
  TimeWithinDay (calculateResetTime losAngeles2024 1710061200000)
  = 7 * msPerHour /\
  TimeWithinDay (calculateResetTime losAngeles2024 1710061200000)
  <> 8 * msPerHour /\
  calculateResetTime losAngeles2024 1730620800000 - 1730620800000
  = 25 * msPerHour.
Proof.
  repeat split. vm_compute. discriminate.
Qed.
End ResetTime.

(** ** Quota before invalid key (C4) *)

Lemma prefix_app (t r : string) : String.prefix t (t ++ r) = true.
Proof.
  induction t as [| c t IH]; simpl.
  - now destruct r.
  - destruct (ascii_dec c c) as [_ | Hne]; [exact IH | congruence].
Qed.

Lemma includes_prefix (s t : string) :
  String.prefix t s = true -> includes s t = true.
Proof. destruct s; simpl; intros ->; reflexivity. Qed.

Lemma includes_app (a t b : string) : includes (a ++ t ++ b) t = true.
Proof.
  induction a as [| c a IH].
  - change (includes (t ++ b) t = true). apply includes_prefix, prefix_app.
  - simpl. rewrite IH. apply orb_true_r.
Qed.

(** A token written in some mix of cases is found after lower-casing,
    whatever else the string holds. *)
Lemma contains_ci_includes `{JS : JsEngine} (s t : string) :
  contains_ci s t -> is_ascii t = true ->
  includes (toLowerCase s) t = true.
Proof.
  intros (pre & w & post & -> & Hw) Ht.
  destruct (toLowerCase_segment pre w post (anycase_ascii _ _ Hw Ht))
    as (a & b & ->).
  rewrite (anycase_lower _ _ Hw). apply includes_app.
Qed.

(** On a message of ASCII characters the engine plays no part. *)
Lemma isQuotaError_ascii `{JS : JsEngine} e :
  is_ascii (errorMessage e) = true ->
  isQuotaError e = @isQuotaError asciiEngine e.
Proof.
  intros Ha. unfold isQuotaError. cbv zeta.
  now rewrite (toLowerCase_ascii _ Ha).
Qed.

Lemma isInvalidKeyError_ascii `{JS : JsEngine} e :
  is_ascii (errorMessage e) = true ->
  isInvalidKeyError e = @isInvalidKeyError asciiEngine e.
Proof.
  intros Ha. unfold isInvalidKeyError. cbv zeta.
  now rewrite (toLowerCase_ascii _ Ha).
Qed.

Lemma classify_ascii `{JS : JsEngine} e :
  is_ascii (errorMessage e) = true ->
  classify e = @classify asciiEngine e.
Proof.
  intros Ha. unfold classify.
  now rewrite (isQuotaError_ascii _ Ha), (isInvalidKeyError_ascii _ Ha).
Qed.



(** Under every engine the 403 without a payload is of class Transient. *)
Lemma classify_forbidden403 `{JS : JsEngine} :
  isQuotaError MoreFixtures.forbidden403 = false /\
  isInvalidKeyError MoreFixtures.forbidden403 = false /\
  classify MoreFixtures.forbidden403 = Transient.
Proof.
  rewrite isQuotaError_ascii, isInvalidKeyError_ascii, classify_ascii
    by reflexivity.
  repeat split.
Qed.


(** ** The request loop (C5, C1) *)

Section ControllerFacts.
Context `{JS : JsEngine}.
Variable zone : HostZone.
Variable Response : Type.
Variable axios_get : nat -> string -> Response + ApiError.
Variable clock_try clock_catch : nat -> Z.

Lemma classify_Fatal e :
  classify e = Fatal ->
  isQuotaError e = false /\ isInvalidKeyError e = false /\
  retryCondition e = false /\ isRotationStatus e = false.
Proof.
  unfold classify. repeat case_match; try discriminate. intros _.
  match goal with H : _ || _ = false |- _ =>
    apply orb_false_iff in H as [? ?] end.
  auto.
Qed.

(** An attempt that fails with a status other than 429 and 403 is the
    last one. *)
Lemma request_loop_gives_up remaining attempt maxRetries last w status e :
  keyStatus (manager w) !! currentKeyIndex (manager w) = Some status ->
  axios_get attempt (key status) = inr e ->
  isRotationStatus e = false ->
  request_loop zone Response axios_get clock_try clock_catch
    (S remaining) attempt maxRetries last w
  = (Throw (EUpstream e),
     mkWorld
       (set_status (currentKeyIndex (manager w))
          (mkKeyStatus (key status) (isActive status) (failCount status)
             (lastError status) (Some (clock_try attempt))
             (quotaExceeded status) (resetTime status))
          (manager w))
       (trace w ++ [EvGet attempt (key status)])).
Proof.
  intros Hs Hget Hrot. simpl.
  unfold try_catch, bind, lift, getCurrentApiKey, getCurrentKey, get, emit.
  run_method. rewrite Hs. simpl. rewrite Hget. simpl. rewrite Hrot.
  reflexivity.
Qed.

(** C5.  When the first attempt fails with an error of class Fatal (not a
    quota error, not an invalid key, not a status on which the code tries
    again), [makeApiRequestWithKeyRotation] throws that very error after
    this one request: the trace gains the single [EvGet] of attempt 0 and no
    wait, the current index is the one before the call and no status has
    changed but for the [lastUsed] that [getCurrentKey] stamps. *)
Theorem makeApiRequestWithKeyRotation_fatal maxRetries w status e :
  0 < maxRetries ->
  keyStatus (manager w) !! currentKeyIndex (manager w) = Some status ->
  axios_get 0 (key status) = inr e ->
  classify e = Fatal ->
  let run := makeApiRequestWithKeyRotation zone Response axios_get
               clock_try clock_catch maxRetries w in
  fst run = Throw (EUpstream e) /\
  trace (snd run) = trace w ++ [EvGet 0 (key status)] /\
  currentKeyIndex (manager (snd run)) = currentKeyIndex (manager w) /\
  manager (snd run)
  = set_status (currentKeyIndex (manager w))
      (mkKeyStatus (key status) (isActive status) (failCount status)
         (lastError status) (Some (clock_try 0))
         (quotaExceeded status) (resetTime status))
      (manager w).
Proof.
  intros Hmax Hs Hget Hfatal.
  apply classify_Fatal in Hfatal as (_ & _ & _ & Hrot).
  unfold makeApiRequestWithKeyRotation.
  destruct maxRetries as [| n]; [lia |].
  cbv zeta.
  rewrite (request_loop_gives_up n 0 (S n) ENull w status e Hs Hget Hrot).
  repeat split.
Qed.

(** The loop never reports the exhaustion of the pool: what it throws is
    never the error of [rotateToNextKey]. *)
Lemma request_loop_not_exhausted : forall remaining attempt maxRetries last w,
  last <> EKeysExhausted ->
  fst (request_loop zone Response axios_get clock_try clock_catch
         remaining attempt maxRetries last w) <> Throw EKeysExhausted.
Proof.
  induction remaining as [| remaining IH]; intros attempt maxRetries last w Hl.
  - simpl. unfold throw. simpl. congruence.
  - simpl.
    unfold try_catch, bind, lift, getCurrentApiKey, getCurrentKey, get, emit,
      markRequestSuccess, resetCurrentKeyErrors.
    run_method.
    destruct (keyStatus (manager w) !! currentKeyIndex (manager w))
      as [status |] eqn:Hs; simpl; [| discriminate].
    destruct (axios_get attempt (key status)) as [response | e]; simpl.
    + rewrite list_lookup_insert_eq by (eapply lookup_lt_Some; exact Hs).
      simpl. discriminate.
    + destruct (isRotationStatus e); simpl; [| discriminate].
      match goal with |- context [handleApiError_rethrow ?z ?e' ?t ?m] =>
        destruct (handleApiError_rethrow z e' t m) as [[u | x] m''] end; simpl;
        (destruct (attempt <? maxRetries - 1); simpl;
         [apply IH; discriminate | discriminate]).
Qed.
End ControllerFacts.

Lemma makeApiRequestWithKeyRotation_fatal_witness :
  let run := makeApiRequestWithKeyRotation Fixtures.utc unit
               Fixtures.always_notFound (fun _ => Fixtures.t0)
               (fun _ => Fixtures.t0) 3 (mkWorld Fixtures.pool1 []) in
  fst run = Throw (EUpstream Fixtures.notFound404) /\
  trace (snd run) = [EvGet 0 "K0"%string].
Proof.
  pose proof (makeApiRequestWithKeyRotation_fatal Fixtures.utc unit
                Fixtures.always_notFound (fun _ => Fixtures.t0)
                (fun _ => Fixtures.t0) 3 (mkWorld Fixtures.pool1 [])
                (initialStatus "K0") Fixtures.notFound404
                ltac:(lia) eq_refl eq_refl eq_refl) as (H1 & H2 & _).
  exact (conj H1 H2).
Defined.

(** C1, where the code departs from it.  One key, and an upstream that
    answers every request with a 403 for exhausted quota.  Handling the
    first failure marks the key and the rotation throws the exhaustion
    error; the loop catches it and drops it, waits, and sends the request
    again with the same exhausted key, twice; what the caller gets in the
    end is the 403 of the upstream, never the exhaustion error. *)
Theorem makeApiRequestWithKeyRotation_swallows_exhaustion :
  let run := makeApiRequestWithKeyRotation Fixtures.utc unit
               Fixtures.always_quota403 (fun _ => Fixtures.t0)
               (fun _ => Fixtures.t0) 3 (mkWorld Fixtures.pool1 []) in
  fst (handleApiError Fixtures.utc Fixtures.quota403 Fixtures.t0
         (snd (getCurrentKey Fixtures.t0 Fixtures.pool1)))
  = Throw EKeysExhausted /\
  trace (snd run)
  = [EvGet 0 "K0"; EvSleep 1000; EvGet 1 "K0"; EvSleep 1000; EvGet 2 "K0"]%string /\
  fst run = Throw (EUpstream Fixtures.quota403) /\
  fst run <> Throw EKeysExhausted.
Proof.
  cbv zeta. repeat split. vm_compute. discriminate.
Qed.

(** That run is the same under every engine: the error is a quota error
    by the code of its payload, whatever the lower-casing gives. *)
Lemma makeApiRequestWithKeyRotation_quota403_engine `{JS : JsEngine} :
  makeApiRequestWithKeyRotation Fixtures.utc unit
    Fixtures.always_quota403 (fun _ => Fixtures.t0)
    (fun _ => Fixtures.t0) 3 (mkWorld Fixtures.pool1 [])
  = @makeApiRequestWithKeyRotation asciiEngine Fixtures.utc unit
      Fixtures.always_quota403 (fun _ => Fixtures.t0)
      (fun _ => Fixtures.t0) 3 (mkWorld Fixtures.pool1 []).
Proof. vm_compute. reflexivity. Qed.

(** ** The cache in front of the fetch functions (C6) *)

Section CacheFacts.
Variables V W : Type.
Variable truthy : V -> bool.




Lemma cache_find_set now k v (c : Cache V) :
  cache_find V k (cache_set V now k v c) = Some (mkCacheEntry V k v now).
Proof.
  unfold cache_set.
  set (rest := cache_delete V k c).
  destruct (cache_max <? length (mkCacheEntry V k v now :: rest)) eqn:E.
  - destruct rest as [| e rest'].
    + apply Nat.ltb_lt in E. unfold cache_max in E. simpl in E. lia.
    + change (removelast (mkCacheEntry V k v now :: e :: rest'))
        with (mkCacheEntry V k v now :: removelast (e :: rest')).
      cbn [cache_find ce_key]. now rewrite String.eqb_refl.
  - cbn [cache_find ce_key]. now rewrite String.eqb_refl.
Qed.

End CacheFacts.



(** * Further properties of the key manager *)

(** ** The pool keeps its keys (X1) *)

Lemma fmap_key_set_status i s s' m :
  keyStatus m !! i = Some s -> key s' = key s ->
  key <$> keyStatus (set_status i s' m) = key <$> keyStatus m.
Proof.
  intros Hs Hk. simpl. rewrite list_fmap_insert, Hk.
  apply list_insert_id. now rewrite list_lookup_fmap, Hs.
Qed.

Ltac keys_of_write :=
  match goal with
  | H : keyStatus ?m !! ?i = Some ?s
    |- key <$> <[ ?i := ?s' ]> (keyStatus ?m) = key <$> keyStatus ?m =>
      exact (fmap_key_set_status i s s' m H eq_refl)
  end.

Lemma rotate_loop_keys left start now m :
  key <$> keyStatus (snd (rotate_loop left start now m))
  = key <$> keyStatus m.
Proof.
  revert m. induction left as [| left IH]; intros m; simpl;
    repeat case_match; simpl in *; try reflexivity; try keys_of_write.
  now rewrite IH.
Qed.

Lemma fmap_key_constructor keys :
  key <$> map initialStatus keys = keys.
Proof. induction keys as [| k keys IH]; simpl; [reflexivity | now f_equal]. Qed.

Lemma fmap_key_resetStatus (l : list KeyStatus) :
  key <$> map resetStatus l = key <$> l.
Proof. induction l as [| s l IH]; simpl; [reflexivity | now f_equal]. Qed.

Lemma markCurrentKeyAsExhausted_keys zone error now m :
  key <$> keyStatus (snd (markCurrentKeyAsExhausted zone error now m))
  = key <$> keyStatus m.
Proof.
  unfold markCurrentKeyAsExhausted, rotateToNextKey. run_method.
  destruct (keyStatus m !! currentKeyIndex m) as [st |] eqn:Hs; simpl;
    [| reflexivity].
  rewrite rotate_loop_keys. simpl. keys_of_write.
Qed.

Lemma markCurrentKeyError_keys error now m :
  key <$> keyStatus (snd (markCurrentKeyError error now m))
  = key <$> keyStatus m.
Proof.
  unfold markCurrentKeyError, rotateToNextKey. run_method.
  destruct (keyStatus m !! currentKeyIndex m) as [st |] eqn:Hs; simpl;
    [| reflexivity].
  destruct (failCount st) as [| [| n]]; simpl; try keys_of_write.
  rewrite rotate_loop_keys. simpl. keys_of_write.
Qed.

Lemma getCurrentKey_keys now m :
  key <$> keyStatus (snd (getCurrentKey now m)) = key <$> keyStatus m.
Proof.
  unfold getCurrentKey. run_method.
  destruct (keyStatus m !! currentKeyIndex m) as [st |] eqn:Hs; simpl;
    [keys_of_write | reflexivity].
Qed.

Lemma run_op_keys `{JS : JsEngine} zone op m :
  key <$> keyStatus (run_op zone op m) = key <$> keyStatus m.
Proof.
  destruct op; simpl.
  - apply getCurrentKey_keys.
  - apply markCurrentKeyAsExhausted_keys.
  - apply markCurrentKeyError_keys.
  - unfold resetCurrentKeyErrors. run_method.
    destruct (keyStatus m !! currentKeyIndex m) as [st |] eqn:Hs; simpl;
      [keys_of_write | reflexivity].
  - apply rotate_loop_keys.
  - unfold handleApiError. repeat case_match;
      auto using getCurrentKey_keys, markCurrentKeyError_keys,
        markCurrentKeyAsExhausted_keys.
  - unfold resetKey. case_match; simpl; [reflexivity |]. run_method.
    destruct (keyStatus m !! Z.to_nat keyIndex) as [st |] eqn:Hs; simpl;
      [keys_of_write | reflexivity].
  - apply fmap_key_resetStatus.
Qed.

Lemma getCurrentKey_apiKeys now m :
  apiKeys (snd (getCurrentKey now m)) = apiKeys m.
Proof.
  unfold getCurrentKey. run_method.
  now destruct (keyStatus m !! currentKeyIndex m).
Qed.

Lemma markCurrentKeyAsExhausted_apiKeys zone error now m :
  apiKeys (snd (markCurrentKeyAsExhausted zone error now m)) = apiKeys m.
Proof.
  unfold markCurrentKeyAsExhausted, rotateToNextKey. run_method.
  destruct (keyStatus m !! currentKeyIndex m); simpl; [| reflexivity].
  now rewrite rotate_loop_apiKeys.
Qed.

Lemma markCurrentKeyError_apiKeys error now m :
  apiKeys (snd (markCurrentKeyError error now m)) = apiKeys m.
Proof.
  unfold markCurrentKeyError, rotateToNextKey. run_method.
  destruct (keyStatus m !! currentKeyIndex m) as [st |]; simpl;
    [| reflexivity].
  destruct (failCount st) as [| [| n]]; simpl; try reflexivity.
  now rewrite rotate_loop_apiKeys.
Qed.

Lemma run_op_apiKeys `{JS : JsEngine} zone op m : apiKeys (run_op zone op m) = apiKeys m.
Proof.
  destruct op; simpl.
  - apply getCurrentKey_apiKeys.
  - apply markCurrentKeyAsExhausted_apiKeys.
  - apply markCurrentKeyError_apiKeys.
  - unfold resetCurrentKeyErrors. run_method.
    now destruct (keyStatus m !! currentKeyIndex m).
  - apply rotate_loop_apiKeys.
  - unfold handleApiError. repeat case_match;
      auto using getCurrentKey_apiKeys, markCurrentKeyError_apiKeys,
        markCurrentKeyAsExhausted_apiKeys.
  - unfold resetKey. case_match; simpl; [reflexivity |]. run_method.
    now destruct (keyStatus m !! Z.to_nat keyIndex).
  - reflexivity.
Qed.

(** X1.  In every state the manager can be in, the pool is not empty, the
    current index is within it, there is one status per configured key, and
    the status at position [i] holds the [i]-th configured key.  No method
    changes the list of keys. *)
Theorem reachable_pool_invariant `{JS : JsEngine} zone m :
  reachable zone m ->
  wf m /\ key <$> keyStatus m = apiKeys m /\
  forall op, apiKeys (run_op zone op m) = apiKeys m.
Proof.
  intros Hr. split; [| split].
  - clear -Hr. induction Hr as [keys m Hc | op m _ IH];
      [eauto using wf_constructor | now apply wf_run_op].
  - induction Hr as [keys m Hc | op m _ IH].
    + destruct keys as [| k keys]; [discriminate |].
      simpl in Hc. inversion Hc; subst; simpl.
      f_equal. apply fmap_key_constructor.
    + now rewrite run_op_keys, run_op_apiKeys.
  - intros op. apply run_op_apiKeys.
Qed.

Lemma reachable_pool_invariant_witness :
  key <$> keyStatus
    (run_op Fixtures.utc (OpMarkError "bad" Fixtures.t0)
       (run_op Fixtures.utc (OpMarkExhausted "quota" Fixtures.t0)
          Fixtures.pool3))
  = ["K0"; "K1"; "K2"]%string.
Proof.
  refine (proj1 (proj2 (reachable_pool_invariant Fixtures.utc _ _))).
  do 2 apply reachable_step.
  apply (reachable_init Fixtures.utc ["K0"; "K1"; "K2"]%string). reflexivity.
Defined.

(** ** What a rotation establishes (X2, X3, X4) *)

Lemma rotate_loop_post left start now : forall m r m',
  rotate_loop left start now m = (Normal r, m') ->
  exists s, keyStatus m' !! currentKeyIndex m' = Some s /\
            status_of s = Active /\ key s = r.
Proof.
  induction left as [| left IH]; intros m r m'; simpl;
    destruct (keyStatus m !! ((currentKeyIndex m + 1) mod length (apiKeys m)))
      as [st |] eqn:Hs; try (intros ?; discriminate);
    destruct (isActive st && negb (quotaExceeded st)) eqn:Ha;
    try (intros [= <- <-]; exists st; simpl; split; [exact Hs |];
         split; [| reflexivity]; apply status_of_Active;
         apply andb_true_iff in Ha as [? Hq];
         apply negb_true_iff in Hq; now split);
    destruct (quotaExceeded st && shouldResetKey now st) eqn:Hq;
    try (intros [= <- <-]; exists (reactivate st); simpl;
         split; [apply list_lookup_insert_eq; eapply lookup_lt_Some; exact Hs |];
         split; reflexivity);
    try (intros ?; discriminate).
  destruct (negb (_ =? start)); [| intros ?; discriminate]. intros Hrun.
  now apply IH in Hrun.
Qed.

(** X2.  When [rotateToNextKey] returns, the status at the current index is
    Active and the value returned is the key of that status. *)
Theorem rotateToNextKey_selects_active now m r m' :
  rotateToNextKey now m = (Normal r, m') ->
  exists s, keyStatus m' !! currentKeyIndex m' = Some s /\
            status_of s = Active /\ key s = r.
Proof. unfold rotateToNextKey. apply rotate_loop_post. Qed.

Lemma rotateToNextKey_selects_active_witness :
  exists s,
    keyStatus (snd (rotateToNextKey Fixtures.t0 Fixtures.pool_waiting))
      !! currentKeyIndex (snd (rotateToNextKey Fixtures.t0 Fixtures.pool_waiting))
    = Some s /\ status_of s = Active /\ key s = "K1"%string.
Proof.
  exact (rotateToNextKey_selects_active Fixtures.t0 Fixtures.pool_waiting
           "K1" _ eq_refl).
Defined.

Lemma rotate_loop_all_passed left start now : forall m,
  0 < length (apiKeys m) ->
  length (keyStatus m) = length (apiKeys m) ->
  (forall i s, keyStatus m !! i = Some s -> passedOver now s = true) ->
  fst (rotate_loop left start now m) = Throw EKeysExhausted.
Proof.
  induction left as [| left IH]; intros m Hn Hlen Hall; simpl;
    (destruct (keyStatus m !! ((currentKeyIndex m + 1) mod length (apiKeys m)))
       as [st |] eqn:Hs;
     [| apply lookup_ge_None in Hs;
        pose proof (Nat.mod_upper_bound (currentKeyIndex m + 1)
                      (length (apiKeys m))); lia]);
    pose proof (Hall _ _ Hs) as Hp; unfold passedOver in Hp;
    apply andb_true_iff in Hp as [Hp1 Hp2];
    apply negb_true_iff in Hp1, Hp2; rewrite Hp1, Hp2;
    try reflexivity.
  destruct (negb (_ =? start)); [| reflexivity].
  apply IH; assumption.
Qed.

Lemma rotate_loop_throw_passed left start now : forall m a x m',
  start < length (apiKeys m) ->
  currentKeyIndex m = (start + a) mod length (apiKeys m) ->
  a + 1 + left = length (apiKeys m) ->
  rotate_loop left start now m = (Throw x, m') ->
  x = EKeysExhausted ->
  forall d, 1 <= d <= left + 1 -> exists s,
    keyStatus m !! ((start + a + d) mod length (apiKeys m)) = Some s /\
    passedOver now s = true.
Proof.
  induction left as [| left IH]; intros m a x m' Hs Hcur Hsum; simpl;
    rewrite Hcur, mod_succ_step;
    destruct (keyStatus m !! ((start + a + 1) mod length (apiKeys m)))
      as [st |] eqn:Hst;
    try (intros [= <- _] [=]);
    destruct (isActive st && negb (quotaExceeded st)) eqn:H1;
    try (intros ?; discriminate);
    destruct (quotaExceeded st && shouldResetKey now st) eqn:H2;
    try (intros ?; discriminate).
  - intros _ _ d Hd. assert (d = 1) as -> by lia.
    exists st. split; [exact Hst |]. unfold passedOver. now rewrite H1, H2.
  - assert (Hne : (start + a + 1) mod length (apiKeys m) <> start).
    { rewrite <- Nat.add_assoc. apply mod_not_start; lia. }
    apply Nat.eqb_neq in Hne. rewrite Hne. simpl.
    intros Hrun Hx d Hd.
    destruct (decide (d = 1)) as [-> | Hd1].
    + exists st. split; [exact Hst |]. unfold passedOver. now rewrite H1, H2.
    + assert (Hnext : (start + a + 1) mod length (apiKeys m)
                      = (start + S a) mod length (apiKeys m))
        by (f_equal; lia).
      destruct (IH (set_currentKeyIndex
                      ((start + a + 1) mod length (apiKeys m)) m)
                  (S a) x m' Hs Hnext ltac:(simpl; lia) Hrun Hx (d - 1)
                  ltac:(lia)) as (s & Hsd & Hp).
      exists s. split; [| exact Hp].
      replace (start + a + d) with (start + S a + (d - 1)) by lia.
      exact Hsd.
Qed.

(** X3.  [rotateToNextKey] gives up exactly when no status of the pool is
    usable at that moment: every one of them is inactive without a quota
    flag, or waiting for a reset time still ahead.  It then throws the
    exhaustion error and leaves the state as it found it. *)
Theorem rotateToNextKey_throws_iff now m :
  wf m ->
  ((forall i s, keyStatus m !! i = Some s -> passedOver now s = true) <->
   rotateToNextKey now m = (Throw EKeysExhausted, m)) /\
  (forall x m', rotateToNextKey now m = (Throw x, m') ->
                x = EKeysExhausted /\ m' = m).
Proof.
  intros Hwf. split; [| intros x m'; now apply rotateToNextKey_throw].
  pose proof Hwf as (Hn & Hlen & Hcur). split.
  - intros Hall.
    pose proof (rotate_loop_all_passed (length (apiKeys m) - 1)
                  (currentKeyIndex m) now m Hn Hlen Hall) as Hf.
    unfold rotateToNextKey.
    destruct (rotate_loop _ _ now m) as [c m'] eqn:Hrun. simpl in Hf. subst c.
    apply (rotateToNextKey_throw now m) in Hrun; [| exact Hwf].
    now destruct Hrun as [_ ->].
  - intros Hrun i s Hi. unfold rotateToNextKey in Hrun.
    assert (Hil : i < length (apiKeys m))
      by (apply lookup_lt_Some in Hi; lia).
    set (n := length (apiKeys m)) in *.
    set (c := currentKeyIndex m) in *.
    pose (d := if decide (c < i) then i - c else i + n - c).
    assert (Hd : 1 <= d <= n - 1 + 1) by (unfold d; case_decide; lia).
    assert (Hmod : (c + 0 + d) mod n = i).
    { unfold d. case_decide.
      - replace (c + 0 + (i - c)) with i by lia. now apply Nat.mod_small.
      - replace (c + 0 + (i + n - c)) with (i + n) by lia.
        now apply mod_wrap. }
    destruct (rotate_loop_throw_passed (n - 1) c now m 0 EKeysExhausted m)
      with (d := d) as (s' & Hs' & Hp); try assumption; try reflexivity;
      try lia.
    + rewrite Nat.add_0_r. symmetry. now apply Nat.mod_small.
    + fold n in Hs'. rewrite Hmod, Hi in Hs'. now injection Hs' as <-.
Qed.

Lemma rotateToNextKey_throws_iff_witness :
  rotateToNextKey Fixtures.t0
    (snd (markCurrentKeyAsExhausted Fixtures.utc "quota" Fixtures.t0
            Fixtures.pool1))
  = (Throw EKeysExhausted,
     snd (markCurrentKeyAsExhausted Fixtures.utc "quota" Fixtures.t0
            Fixtures.pool1)).
Proof.
  refine (proj1 (proj1 (rotateToNextKey_throws_iff Fixtures.t0 _ _)) _).
  - unfold wf. simpl. lia.
  - intros [| i] s; simpl; intros [= <-]. reflexivity.
Defined.

(** X4.  [rotateToNextKey] stops at the first usable status after the
    current index, in the order of the pool and wrapping round: when the
    [j - 1] statuses that follow the current one are passed over and the
    [j]-th is usable, the index moves to it and its key is returned.  An
    Active status is taken as it is (only the index is written); one whose
    quota reset time has come is reactivated. *)
Theorem rotateToNextKey_first_usable now m j st :
  wf m ->
  1 <= j <= length (apiKeys m) ->
  (forall d, 1 <= d < j -> exists s,
      keyStatus m !! ((currentKeyIndex m + d) mod length (apiKeys m))
      = Some s /\ passedOver now s = true) ->
  keyStatus m !! ((currentKeyIndex m + j) mod length (apiKeys m)) = Some st ->
  passedOver now st = false ->
  let t := (currentKeyIndex m + j) mod length (apiKeys m) in
  rotateToNextKey now m
  = (Normal (key st),
     if isActive st && negb (quotaExceeded st)
     then set_currentKeyIndex t m
     else set_status t (reactivate st) (set_currentKeyIndex t m)).
Proof.
  intros Hwf Hj Hskip Hst Hpass t.
  rewrite (rotateToNextKey_reaches now m j st Hwf Hj Hskip Hst Hpass).
  now destruct (isActive st && negb (quotaExceeded st)).
Qed.

Lemma rotateToNextKey_first_usable_witness :
  rotateToNextKey Fixtures.t0
    (set_currentKeyIndex 1
       (set_status 2
          (mkKeyStatus "K2" false 3 (Some "bad"%string) None false None)
          Fixtures.pool3))
  = (Normal "K0"%string,
     set_currentKeyIndex 0
       (set_status 2
          (mkKeyStatus "K2" false 3 (Some "bad"%string) None false None)
          Fixtures.pool3)).
Proof.
  refine (rotateToNextKey_first_usable Fixtures.t0
            (set_currentKeyIndex 1
               (set_status 2
                  (mkKeyStatus "K2" false 3 (Some "bad"%string) None false None)
                  Fixtures.pool3))
            2 (initialStatus "K0") _ _ _ eq_refl eq_refl).
  - unfold wf. simpl. lia.
  - simpl. lia.
  - intros d Hd. assert (d = 1) as -> by lia.
    eexists. split; reflexivity.
Defined.

(** ** Success, and the manual resets (X5, X6, X7) *)

(** X5.  [resetCurrentKeyErrors] puts the failure count of the current
    status back to 0 and clears its last error whatever the count was, and
    touches nothing else: the index and the flags [isActive] and
    [quotaExceeded] stay (a success does not re-enable a key).  After it,
    two more failures in a row still leave the key selected. *)
Theorem resetCurrentKeyErrors_restarts_count m status e1 e2 t1 t2 :
  keyStatus m !! currentKeyIndex m = Some status ->
  let i := currentKeyIndex m in
  let cleared :=
    mkKeyStatus (key status) (isActive status) 0 None (lastUsed status)
      (quotaExceeded status) (resetTime status) in
  let m0 := snd (resetCurrentKeyErrors m) in
  let m1 := snd (markCurrentKeyError e1 t1 m0) in
  resetCurrentKeyErrors m = (Normal tt, set_status i cleared m) /\
  fst (markCurrentKeyError e1 t1 m0) = Normal (key status) /\
  fst (markCurrentKeyError e2 t2 m1) = Normal (key status) /\
  currentKeyIndex (snd (markCurrentKeyError e2 t2 m1)) = i /\
  exists s', keyStatus (snd (markCurrentKeyError e2 t2 m1)) !! i = Some s' /\
             failCount s' = 2 /\ isActive s' = isActive status /\
             quotaExceeded s' = quotaExceeded status.
Proof.
  intros Hs i cleared.
  assert (Hi : i < length (keyStatus m)) by (eapply lookup_lt_Some; eauto).
  assert (Hreset : resetCurrentKeyErrors m = (Normal tt, set_status i cleared m)).
  { unfold resetCurrentKeyErrors. run_method. now rewrite Hs. }
  cbv zeta. rewrite Hreset. cbn [fst snd].
  assert (Hs0 : keyStatus (set_status i cleared m)
                  !! currentKeyIndex (set_status i cleared m) = Some cleared)
    by now apply lookup_set_status.
  destruct (markCurrentKeyError_step _ e1 t1 cleared Hs0) as [Hlow1 _].
  change (currentKeyIndex (set_status i cleared m)) with i in Hlow1.
  rewrite Hlow1 by (simpl; lia). cbn [fst snd]. rewrite set_status_twice.
  set (s1 := mkKeyStatus (key cleared) (isActive cleared)
               (S (failCount cleared)) (Some e1) (lastUsed cleared)
               (quotaExceeded cleared) (resetTime cleared)).
  assert (Hs1 : keyStatus (set_status i s1 m)
                  !! currentKeyIndex (set_status i s1 m) = Some s1)
    by now apply lookup_set_status.
  destruct (markCurrentKeyError_step _ e2 t2 s1 Hs1) as [Hlow2 _].
  change (currentKeyIndex (set_status i s1 m)) with i in Hlow2.
  rewrite Hlow2 by (simpl; lia). cbn [fst snd]. rewrite set_status_twice.
  repeat split. eexists. split; [now apply lookup_set_status |].
  repeat split.
Qed.

Lemma resetCurrentKeyErrors_restarts_count_witness :
  let m := set_status 0
             (mkKeyStatus "K0" true 2 (Some "bad"%string) None false None)
             Fixtures.pool3 in
  fst (markCurrentKeyError "bad" Fixtures.t0
         (snd (markCurrentKeyError "bad" Fixtures.t0
                 (snd (resetCurrentKeyErrors m)))))
  = Normal "K0"%string.
Proof.
  exact (proj1 (proj2 (proj2
    (resetCurrentKeyErrors_restarts_count
       (set_status 0
          (mkKeyStatus "K0" true 2 (Some "bad"%string) None false None)
          Fixtures.pool3)
       (mkKeyStatus "K0" true 2 (Some "bad"%string) None false None)
       "bad" "bad" Fixtures.t0 Fixtures.t0 eq_refl)))).
Defined.

(** X6.  [resetKey] checks its index against the pool: below 0 or from
    [apiKeys.length] on it throws the invalid-index error and writes
    nothing.  Within the pool it makes that status Active again (no
    failures, no last error, no reset time; the key and [lastUsed] stay)
    and leaves the current index and every other status alone. *)
Theorem resetKey_bounds m keyIndex :
  wf m ->
  ((keyIndex < 0 \/ Z.of_nat (length (apiKeys m)) <= keyIndex)%Z ->
   resetKey keyIndex m = (Throw EInvalidIndex, m)) /\
  ((0 <= keyIndex < Z.of_nat (length (apiKeys m)))%Z ->
   exists status,
     keyStatus m !! Z.to_nat keyIndex = Some status /\
     resetKey keyIndex m
     = (Normal tt, set_status (Z.to_nat keyIndex) (resetStatus status) m) /\
     status_of (resetStatus status) = Active /\
     failCount (resetStatus status) = 0 /\
     key (resetStatus status) = key status /\
     currentKeyIndex (snd (resetKey keyIndex m)) = currentKeyIndex m /\
     forall i, i <> Z.to_nat keyIndex ->
               keyStatus (snd (resetKey keyIndex m)) !! i = keyStatus m !! i).
Proof.
  intros (Hn & Hlen & Hcur). unfold resetKey. split.
  - intros Hout.
    replace ((keyIndex <? 0) || (Z.of_nat (length (apiKeys m)) <=? keyIndex))%Z
      with true; [reflexivity |].
    symmetry. apply orb_true_iff.
    destruct Hout; [left; now apply Z.ltb_lt | right; now apply Z.leb_le].
  - intros Hin.
    replace ((keyIndex <? 0) || (Z.of_nat (length (apiKeys m)) <=? keyIndex))%Z
      with false
      by (symmetry; apply orb_false_iff; split;
          [apply Z.ltb_ge | apply Z.leb_gt]; lia).
    destruct (lookup_lt_is_Some_2 (keyStatus m) (Z.to_nat keyIndex))
      as [status Hs]; [lia |].
    exists status. split; [exact Hs |]. run_method. rewrite Hs. simpl.
    repeat split. intros i Hi. now apply list_lookup_insert_ne.
Qed.

Lemma resetKey_bounds_witness :
  resetKey 3 Fixtures.pool3 = (Throw EInvalidIndex, Fixtures.pool3) /\
  resetKey (-1) Fixtures.pool3 = (Throw EInvalidIndex, Fixtures.pool3) /\
  exists status,
    keyStatus Fixtures.pool_waiting !! 1 = Some status /\
    resetKey 1 Fixtures.pool_waiting
    = (Normal tt, set_status 1 (resetStatus status) Fixtures.pool_waiting).
Proof.
  assert (H3 : wf Fixtures.pool3) by (unfold wf; simpl; lia).
  assert (Hw : wf Fixtures.pool_waiting) by (unfold wf; simpl; lia).
  split; [| split].
  - apply (proj1 (resetKey_bounds Fixtures.pool3 3 H3)). simpl. lia.
  - apply (proj1 (resetKey_bounds Fixtures.pool3 (-1) H3)). lia.
  - destruct (proj2 (resetKey_bounds Fixtures.pool_waiting 1 Hw))
      as (status & Hs & Hrun & _); [simpl; lia |].
    exists status. split; [exact Hs | exact Hrun].
Defined.

(** X7.  [resetAllKeys] makes every status Active and keeps the current
    index; whatever the pool was before, the rotation that follows does
    not throw: it moves to the next index, wrapping round. *)
Theorem resetAllKeys_recovers m now :
  wf m ->
  let m' := snd (resetAllKeys m) in
  let next := (currentKeyIndex m + 1) mod length (apiKeys m) in
  currentKeyIndex m' = currentKeyIndex m /\
  (forall i s, keyStatus m' !! i = Some s ->
               status_of s = Active /\ failCount s = 0 /\
               lastError s = None /\ resetTime s = None) /\
  exists s, keyStatus m !! next = Some s /\
            rotateToNextKey now m'
            = (Normal (key s), set_currentKeyIndex next m').
Proof.
  intros Hwf. pose proof Hwf as (Hn & Hlen & Hcur). cbv zeta.
  assert (Hall : forall i s,
             keyStatus (snd (resetAllKeys m)) !! i = Some s ->
             exists s0, keyStatus m !! i = Some s0 /\ s = resetStatus s0).
  { intros i s. simpl. intros Hi.
    change (map resetStatus (keyStatus m)) with (resetStatus <$> keyStatus m)
      in Hi.
    rewrite list_lookup_fmap in Hi.
    destruct (keyStatus m !! i) as [s0 |]; [| discriminate].
    injection Hi as <-. eauto. }
  split; [reflexivity |]. split.
  - intros i s Hi. destruct (Hall i s Hi) as (s0 & _ & ->). repeat split.
  - set (next := (currentKeyIndex m + 1) mod length (apiKeys m)).
    assert (Hnext : next < length (apiKeys m))
      by (apply Nat.mod_upper_bound; lia).
    destruct (lookup_lt_is_Some_2 (keyStatus m) next) as [s Hs]; [lia |].
    exists s. split; [exact Hs |].
    assert (Hwf' : wf (snd (resetAllKeys m)))
      by (unfold wf; simpl; rewrite length_map; lia).
    assert (Hs' : keyStatus (snd (resetAllKeys m)) !! next
                  = Some (resetStatus s)).
    { simpl.
      change (map resetStatus (keyStatus m)) with (resetStatus <$> keyStatus m).
      now rewrite list_lookup_fmap, Hs. }
    rewrite (rotateToNextKey_reaches now (snd (resetAllKeys m)) 1
               (resetStatus s) Hwf'); try reflexivity.
    + simpl. lia.
    + intros d Hd. lia.
    + exact Hs'.
Qed.

Lemma resetAllKeys_recovers_witness :
  rotateToNextKey Fixtures.t0
    (snd (resetAllKeys
            (snd (markCurrentKeyAsExhausted Fixtures.utc "quota" Fixtures.t0
                    Fixtures.pool1))))
  = (Normal "K0"%string,
     set_currentKeyIndex 0
       (snd (resetAllKeys
               (snd (markCurrentKeyAsExhausted Fixtures.utc "quota"
                       Fixtures.t0 Fixtures.pool1))))).
Proof.
  destruct (resetAllKeys_recovers
              (snd (markCurrentKeyAsExhausted Fixtures.utc "quota"
                      Fixtures.t0 Fixtures.pool1)) Fixtures.t0)
    as (_ & _ & s & Hs & Hrun).
  - unfold wf. simpl. lia.
  - simpl in Hs. injection Hs as <-. exact Hrun.
Defined.

(** ** The rotation writes one status at most (X8) *)

Lemma rotate_loop_frame left start now : forall m r m',
  rotate_loop left start now m = (r, m') ->
  forall i, i <> currentKeyIndex m' -> keyStatus m' !! i = keyStatus m !! i.
Proof.
  induction left as [| left IH]; intros m r m'; simpl;
    destruct (keyStatus m !! ((currentKeyIndex m + 1) mod length (apiKeys m)))
      as [st |] eqn:Hs;
    try (intros [= <- <-] i Hi; reflexivity);
    destruct (isActive st && negb (quotaExceeded st));
    try (intros [= <- <-] i Hi; reflexivity);
    destruct (quotaExceeded st && shouldResetKey now st);
    try (intros [= <- <-] i Hi; simpl in *;
         now rewrite list_lookup_insert_ne by congruence);
    try (intros [= <- <-] i Hi; reflexivity).
  destruct (negb (_ =? start)); [| intros [= <- <-] i Hi; reflexivity].
  intros Hrun i Hi. now rewrite (IH _ _ _ Hrun i Hi).
Qed.

(** X8.  Whatever its outcome, [rotateToNextKey] keeps the list of keys and
    writes no status other than the one at the index it ends on; and that
    one keeps its key.  (When it throws it writes nothing at all.) *)
Theorem rotateToNextKey_frame now m r m' :
  rotateToNextKey now m = (r, m') ->
  apiKeys m' = apiKeys m /\
  key <$> keyStatus m' = key <$> keyStatus m /\
  forall i, i <> currentKeyIndex m' -> keyStatus m' !! i = keyStatus m !! i.
Proof.
  unfold rotateToNextKey. intros Hrun.
  pose proof (rotate_loop_apiKeys (length (apiKeys m) - 1)
                (currentKeyIndex m) now m) as Ha.
  pose proof (rotate_loop_keys (length (apiKeys m) - 1)
                (currentKeyIndex m) now m) as Hk.
  rewrite Hrun in Ha, Hk. simpl in Ha, Hk.
  split; [exact Ha |]. split; [exact Hk |].
  eapply rotate_loop_frame; exact Hrun.
Qed.

Lemma rotateToNextKey_frame_witness :
  keyStatus (snd (rotateToNextKey Fixtures.t0 Fixtures.pool_waiting)) !! 0
  = Some (initialStatus "K0").
Proof.
  refine (proj2 (proj2 (rotateToNextKey_frame Fixtures.t0
                          Fixtures.pool_waiting _ _ eq_refl)) 0 _).
  simpl. lia.
Defined.

(** ** The reset time on a host with a fixed offset (X9, X10) *)

Section ResetTimeFixed.
Local Open Scope Z_scope.

(** X9.  On a host whose zone keeps one offset (UTC, for one), whatever
    that offset is, [calculateResetTime] is the first instant after [now]
    at which the UTC clock shows 08:00:00.000: it is later than [now], and
    no instant in between has that time of day. *)
Theorem calculateResetTime_fixedZone_first off now :
  let r := calculateResetTime (fixedZone off) now in
  now < r /\ TimeWithinDay r = 8 * msPerHour /\
  forall t, now < t -> TimeWithinDay t = 8 * msPerHour -> r <= t.
Proof.
  unfold calculateResetTime, setDate_getDate_plus_1, UTC, LocalTime,
    setUTCHours_8, Day, TimeWithinDay, msPerHour, msPerDay. simpl.
  pose proof (Z.div_mod now 86400000 ltac:(lia)) as Hdm.
  pose proof (Z.mod_pos_bound now 86400000 ltac:(lia)) as Hb.
  set (d := now / 86400000) in *. set (r := now mod 86400000) in *.
  change (8 * 3600000) with 28800000.
  destruct (Z.leb_spec (d * 86400000 + 28800000) now) as [Hle | Hgt].
  - replace (d * 86400000 + 28800000 + off + 86400000 - off)
      with (28800000 + (d + 1) * 86400000) by lia.
    rewrite Z.mod_add by lia. rewrite Z.mod_small by lia.
    repeat split; try lia.
    intros t Ht Hmod.
    pose proof (Z.div_mod t 86400000 ltac:(lia)) as Ht'. lia.
  - replace (d * 86400000 + 28800000) with (28800000 + d * 86400000) by lia.
    rewrite Z.mod_add by lia. rewrite Z.mod_small by lia.
    repeat split; try lia.
    intros t Ht Hmod.
    pose proof (Z.div_mod t 86400000 ltac:(lia)) as Ht'. lia.
Qed.
End ResetTimeFixed.

Lemma calculateResetTime_fixedZone_first_witness :
  (calculateResetTime (fixedZone (-18000000)) Fixtures.t0 <= 1710144000000)%Z.
Proof.
  apply (proj2 (proj2 (calculateResetTime_fixedZone_first (-18000000)
                         Fixtures.t0))).
  - unfold Fixtures.t0. lia.
  - reflexivity.
Defined.

(** X10.  On such a host, a call of [markCurrentKeyAsExhausted] that
    returns has moved to another index: the key it has just marked is not
    the one it selects (its reset time is ahead of the clock of the call),
    and the mark on it stands. *)
Theorem markCurrentKeyAsExhausted_moves_on off error now m r m' :
  markCurrentKeyAsExhausted (fixedZone off) error now m = (Normal r, m') ->
  currentKeyIndex m' <> currentKeyIndex m /\
  exists status,
    keyStatus m !! currentKeyIndex m = Some status /\
    keyStatus m' !! currentKeyIndex m
    = Some (mkKeyStatus (key status) false (failCount status) (Some error)
              (lastUsed status) true
              (Some (calculateResetTime (fixedZone off) now))).
Proof.
  unfold markCurrentKeyAsExhausted. run_method.
  destruct (keyStatus m !! currentKeyIndex m) as [status |] eqn:Hs;
    [| discriminate].
  simpl. intros Hrun.
  set (marked := mkKeyStatus _ _ _ _ _ _ _) in Hrun.
  assert (Hi : currentKeyIndex m < length (keyStatus m))
    by (eapply lookup_lt_Some; eauto).
  assert (Hm : keyStatus (set_status (currentKeyIndex m) marked m)
                 !! currentKeyIndex m = Some marked)
    by now apply lookup_set_status.
  assert (Hne : currentKeyIndex m' <> currentKeyIndex m).
  { unfold rotateToNextKey in Hrun.
    eapply (rotate_loop_not_before _ _ now _ (currentKeyIndex m) marked);
      [exact Hm | reflexivity | reflexivity | | exact Hrun].
    apply (calculateResetTime_fixedZone off now). }
  split; [exact Hne |]. exists status. split; [reflexivity |].
  unfold rotateToNextKey in Hrun.
  rewrite (rotate_loop_frame _ _ _ _ _ _ Hrun) by congruence.
  exact Hm.
Qed.

Lemma markCurrentKeyAsExhausted_moves_on_witness :
  currentKeyIndex
    (snd (markCurrentKeyAsExhausted (fixedZone 0) "quota" Fixtures.t0
            Fixtures.pool3))
  <> 0.
Proof.
  exact (proj1 (markCurrentKeyAsExhausted_moves_on 0 "quota" Fixtures.t0
                  Fixtures.pool3 "K1" _ eq_refl)).
Defined.

(** * Further properties of the classification *)

Lemma prefix_inv (t s : string) :
  String.prefix t s = true -> exists post, s = (t ++ post)%string.
Proof.
  revert s. induction t as [| c t IH]; intros s; simpl.
  - intros _. now exists s.
  - destruct s as [| c' s]; [intros ?; discriminate |]. simpl.
    destruct (ascii_dec c c') as [<- | _]; [| intros ?; discriminate].
    intros H. destruct (IH s H) as [post ->]. now exists post.
Qed.

Lemma includes_inv (s t : string) :
  includes s t = true -> exists pre post, s = (pre ++ t ++ post)%string.
Proof.
  induction s as [| c s IH]; cbn [includes].
  - destruct t as [| c t]; simpl; [| intros ?; discriminate].
    intros _. now exists ""%string, ""%string.
  - intros H. apply orb_true_iff in H as [H | H].
    + destruct (prefix_inv _ _ H) as [post ->]. now exists ""%string, post.
    + destruct (IH H) as (pre & post & ->).
      now exists (String c pre), post.
Qed.

Lemma asciiLowerCase_app_inv (s a b : string) :
  asciiLowerCase s = (a ++ b)%string ->
  exists s1 s2, s = (s1 ++ s2)%string /\
                asciiLowerCase s1 = a /\ asciiLowerCase s2 = b.
Proof.
  revert s. induction a as [| c a IH]; intros s; simpl.
  - intros Heq. now exists ""%string, s.
  - destruct s as [| c' s]; [intros ?; discriminate |]. simpl.
    intros [= Hc Heq].
    destruct (IH s Heq) as (s1 & s2 & -> & <- & <-).
    exists (String c' s1), s2. simpl. now rewrite Hc.
Qed.

(** In a message of ASCII characters, what is found after lower-casing is
    a token written in some mix of cases. *)
Lemma includes_contains_ci `{JS : JsEngine} (s t : string) :
  is_ascii s = true ->
  includes (toLowerCase s) t = true -> contains_ci s t.
Proof.
  intros Hs. rewrite (toLowerCase_ascii _ Hs). intros Hin.
  destruct (includes_inv _ _ Hin) as (pre & post & Heq).
  destruct (asciiLowerCase_app_inv _ _ _ Heq) as (s1 & s2 & -> & _ & H2).
  destruct (asciiLowerCase_app_inv _ _ _ H2) as (w & s3 & -> & Hw & _).
  exists s1, w, s3. split; [reflexivity |].
  rewrite <- Hw. apply lower_anycase.
Qed.

(** X11.  The two tests of the key manager.  [isQuotaError] says yes
    whenever the error code of the payload is the number 403 or the message
    contains quota, exceeded or limit in some mix of cases, and
    [isInvalidKeyError] whenever the message contains api key, invalid or
    unregistered in some mix of cases; the HTTP status of the response
    plays no part.  For a message of ASCII characters these are the only
    cases: each test says yes if and only if one of its conditions holds.
    (Outside ASCII the lower-casing of the engine can produce a letter of a
    token from another character, as k from the Kelvin sign.)  The message
    is the payload's when it has a non-empty one, and the error's own
    otherwise. *)
Theorem isQuotaError_isInvalidKeyError_exact `{JS : JsEngine} e :
  (data_error_code e = Some 403%Z \/
   contains_ci (errorMessage e) "quota" \/
   contains_ci (errorMessage e) "exceeded" \/
   contains_ci (errorMessage e) "limit" ->
   isQuotaError e = true) /\
  (contains_ci (errorMessage e) "api key" \/
   contains_ci (errorMessage e) "invalid" \/
   contains_ci (errorMessage e) "unregistered" ->
   isInvalidKeyError e = true) /\
  (is_ascii (errorMessage e) = true ->
   (isQuotaError e = true <->
    data_error_code e = Some 403%Z \/
    contains_ci (errorMessage e) "quota" \/
    contains_ci (errorMessage e) "exceeded" \/
    contains_ci (errorMessage e) "limit") /\
   (isInvalidKeyError e = true <->
    contains_ci (errorMessage e) "api key" \/
    contains_ci (errorMessage e) "invalid" \/
    contains_ci (errorMessage e) "unregistered")) /\
  (errorMessage e
   = match data_error_message e with
     | Some msg => if decide (msg = ""%string) then message e else msg
     | None => message e
     end).
Proof.
  assert (Hc : match data_error_code e with
               | Some c => (c =? 403)%Z
               | None => false
               end = true <-> data_error_code e = Some 403%Z).
  { destruct (data_error_code e) as [c |]; [| split; discriminate].
    rewrite Z.eqb_eq. split; [now intros -> | now intros [= ->]]. }
  assert (Hq : data_error_code e = Some 403%Z \/
               contains_ci (errorMessage e) "quota" \/
               contains_ci (errorMessage e) "exceeded" \/
               contains_ci (errorMessage e) "limit" ->
               isQuotaError e = true).
  { unfold isQuotaError. cbv zeta. rewrite !orb_true_iff, Hc.
    intros [Hcode | [Ht | [Ht | Ht]]];
      [tauto | | |];
      pose proof (contains_ci_includes _ _ Ht eq_refl); tauto. }
  assert (Hi : contains_ci (errorMessage e) "api key" \/
               contains_ci (errorMessage e) "invalid" \/
               contains_ci (errorMessage e) "unregistered" ->
               isInvalidKeyError e = true).
  { unfold isInvalidKeyError. cbv zeta. rewrite !orb_true_iff.
    intros [Ht | [Ht | Ht]];
      pose proof (contains_ci_includes _ _ Ht eq_refl); tauto. }
  split; [exact Hq |]. split; [exact Hi |]. split.
  - intros Ha. split; (split; [| assumption]).
    + unfold isQuotaError. cbv zeta. rewrite !orb_true_iff, Hc.
      intros [[[Hcode | Ht] | Ht] | Ht]; [tauto | | |];
        pose proof (includes_contains_ci _ _ Ha Ht); tauto.
    + unfold isInvalidKeyError. cbv zeta. rewrite !orb_true_iff.
      intros [[Ht | Ht] | Ht];
        pose proof (includes_contains_ci _ _ Ha Ht); tauto.
  - unfold errorMessage. destruct (data_error_message e) as [[| c s] |];
      try reflexivity.
Qed.

Lemma isQuotaError_isInvalidKeyError_exact_witness :
  isInvalidKeyError MoreFixtures.invalidKey400 = true /\
  (isQuotaError MoreFixtures.invalidKey400 = true <->
   data_error_code MoreFixtures.invalidKey400 = Some 403%Z \/
   contains_ci (errorMessage MoreFixtures.invalidKey400) "quota" \/
   contains_ci (errorMessage MoreFixtures.invalidKey400) "exceeded" \/
   contains_ci (errorMessage MoreFixtures.invalidKey400) "limit").
Proof.
  pose proof (isQuotaError_isInvalidKeyError_exact MoreFixtures.invalidKey400)
    as (_ & Hi & Hiff & _).
  split.
  - apply Hi. left.
    exists ""%string, "API key"%string,
      " not valid. Please pass a valid API key."%string.
    split; reflexivity.
  - exact (proj1 (Hiff eq_refl)).
Defined.

(** Outside ASCII the conditions of X11 are not the only cases: under an
    engine that lower-cases the Kelvin sign to k, as the case mappings of
    Unicode do, [isInvalidKeyError] accepts a message that has none of the
    three tokens in any mix of cases. *)
Lemma isInvalidKeyError_kelvinSign :
  is_ascii (errorMessage MoreFixtures.kelvinKey) = false /\
  @isInvalidKeyError kelvinEngine MoreFixtures.kelvinKey = true /\
  ~ (contains_ci (errorMessage MoreFixtures.kelvinKey) "api key" \/
     contains_ci (errorMessage MoreFixtures.kelvinKey) "invalid" \/
     contains_ci (errorMessage MoreFixtures.kelvinKey) "unregistered").
Proof.
  split; [reflexivity |]. split; [reflexivity |].
  intros [Ht | [Ht | Ht]];
    pose proof (contains_ci_includes (JS := asciiEngine) _ _ Ht eq_refl)
      as Hin;
    vm_compute in Hin; discriminate Hin.
Qed.

(** ** When the key manager moves the index (X12) *)

(** X12.  [handleApiError] changes the current index in two cases only: a
    quota error, and an invalid-key error that brings the failure count of
    the current key to 3.  For any other error (and for an invalid-key error
    below the count) it returns the key of the current status and the index
    stays; an error that is neither is not even counted. *)
Theorem handleApiError_keeps_index `{JS : JsEngine} zone e now m status :
  keyStatus m !! currentKeyIndex m = Some status ->
  isQuotaError e = false ->
  (isInvalidKeyError e = true -> S (failCount status) < 3) ->
  let run := handleApiError zone e now m in
  fst run = Normal (key status) /\
  currentKeyIndex (snd run) = currentKeyIndex m /\
  exists s', keyStatus (snd run) !! currentKeyIndex m = Some s' /\
             isActive s' = isActive status /\
             quotaExceeded s' = quotaExceeded status /\
             resetTime s' = resetTime status /\
             failCount s'
             = (if isInvalidKeyError e then S (failCount status)
                else failCount status).
Proof.
  intros Hs Hq Hinv.
  assert (Hi : currentKeyIndex m < length (keyStatus m))
    by (eapply lookup_lt_Some; eauto).
  unfold handleApiError. rewrite Hq.
  destruct (isInvalidKeyError e) eqn:Hinv'.
  - destruct (markCurrentKeyError_step m (message e) now status Hs)
      as [Hlow _].
    cbv zeta. rewrite (Hlow (Hinv eq_refl)). cbn [fst snd].
    repeat split. eexists. split; [now apply lookup_set_status |].
    repeat split.
  - unfold getCurrentKey. run_method. rewrite Hs. simpl.
    repeat split. eexists.
    split; [now apply list_lookup_insert_eq |]. repeat split.
Qed.

Lemma handleApiError_keeps_index_witness :
  fst (handleApiError Fixtures.utc Fixtures.notFound404 Fixtures.t0
         Fixtures.pool3) = Normal "K0"%string /\
  currentKeyIndex
    (snd (handleApiError Fixtures.utc Fixtures.notFound404 Fixtures.t0
            Fixtures.pool3)) = 0.
Proof.
  destruct (handleApiError_keeps_index (JS := asciiEngine)
              Fixtures.utc Fixtures.notFound404
              Fixtures.t0 Fixtures.pool3 (initialStatus "K0")
              eq_refl eq_refl) as (Hk & Hi & _).
  - intros H. discriminate H.
  - exact (conj Hk Hi).
Defined.

(** * Further properties of the request loop *)

Section LoopFacts.
Context `{JS : JsEngine}.
Variable zone : HostZone.
Variable Response : Type.
Variable axios_get : nat -> string -> Response + ApiError.
Variable clock_try clock_catch : nat -> Z.

(** One turn of the loop, on a manager that has a status at its index. *)
Lemma request_loop_turn remaining attempt maxRetries last w status :
  keyStatus (manager w) !! currentKeyIndex (manager w) = Some status ->
  let i := currentKeyIndex (manager w) in
  let used :=
    mkKeyStatus (key status) (isActive status) (failCount status)
      (lastError status) (Some (clock_try attempt))
      (quotaExceeded status) (resetTime status) in
  let sent := trace w ++ [EvGet attempt (key status)] in
  request_loop zone Response axios_get clock_try clock_catch
    (S remaining) attempt maxRetries last w
  = match axios_get attempt (key status) with
    | inl response =>
        (Normal response,
         mkWorld
           (set_status i
              (mkKeyStatus (key status) (isActive status) 0 None
                 (Some (clock_try attempt)) (quotaExceeded status)
                 (resetTime status))
              (manager w))
           sent)
    | inr e =>
        if isRotationStatus e then
          let m2 := snd (handleApiError zone e (clock_catch attempt)
                           (set_status i used (manager w))) in
          if attempt <? maxRetries - 1
          then request_loop zone Response axios_get clock_try clock_catch
                 remaining (S attempt) maxRetries (EUpstream e)
                 (mkWorld m2 (sent ++ [EvSleep 1000]))
          else (Throw (EUpstream e), mkWorld m2 sent)
        else (Throw (EUpstream e), mkWorld (set_status i used (manager w)) sent)
    end.
Proof.
  intros Hs i used sent.
  assert (Hi : i < length (keyStatus (manager w)))
    by (eapply lookup_lt_Some; eauto).
  destruct (axios_get attempt (key status)) as [response | e] eqn:Hget.
  - simpl.
    unfold try_catch, bind, lift, getCurrentApiKey, getCurrentKey, get, emit,
      markRequestSuccess, resetCurrentKeyErrors.
    run_method. rewrite Hs. simpl. rewrite Hget. simpl.
    fold i. rewrite list_lookup_insert_eq by exact Hi. simpl.
    unfold set_status. simpl. now rewrite list_insert_insert_eq.
  - set (h := handleApiError zone e (clock_catch attempt)
                (set_status i used (manager w))).
    simpl.
    unfold try_catch, bind, lift, getCurrentApiKey, getCurrentKey, get, emit,
      handleApiError_rethrow.
    run_method. rewrite Hs. simpl. rewrite Hget. simpl.
    destruct (isRotationStatus e); [| reflexivity].
    match goal with |- context [handleApiError zone e ?t ?m] =>
      change (handleApiError zone e t m) with h end.
    destruct h as [[k | x] m2]; simpl;
      destruct (attempt <? maxRetries - 1); reflexivity.
Qed.

Lemma wf_handleApiError e now m :
  wf m -> wf (snd (handleApiError zone e now m)).
Proof. apply (wf_run_op zone (OpHandleApiError e now)). Qed.

Lemma request_loop_shape : forall remaining attempt maxRetries last w,
  wf (manager w) ->
  0 < remaining -> remaining + attempt = maxRetries ->
  let run := request_loop zone Response axios_get clock_try clock_catch
               remaining attempt maxRetries last w in
  exists keys,
    0 < length keys <= remaining /\
    trace (snd run) = trace w ++ attempts_trace attempt keys /\
    outcome_of axios_get attempt keys (fst run) /\
    wf (manager (snd run)).
Proof.
  induction remaining as [| remaining IH];
    intros attempt maxRetries last w Hwf Hpos Hsum; [lia |].
  cbv zeta.
  destruct (wf_lookup _ Hwf) as [status Hs].
  rewrite (request_loop_turn remaining attempt maxRetries last w status Hs).
  cbv zeta.
  set (i := currentKeyIndex (manager w)).
  set (used := mkKeyStatus (key status) (isActive status) (failCount status)
                 (lastError status) (Some (clock_try attempt))
                 (quotaExceeded status) (resetTime status)).
  assert (Hwf1 : wf (set_status i used (manager w)))
    by now apply wf_set_status.
  destruct (axios_get attempt (key status)) as [response | e] eqn:Hget.
  - exists [key status].
    split; [simpl; lia |]. split; [reflexivity |]. split.
    + exists (key status). split; [reflexivity |].
      simpl. now replace (attempt + 1 - 1) with attempt by lia.
    + now apply wf_set_status.
  - destruct (isRotationStatus e).
    + pose proof (wf_handleApiError e (clock_catch attempt) _ Hwf1) as Hwf2.
      set (m2 := snd (handleApiError zone e (clock_catch attempt)
                        (set_status i used (manager w)))) in *.
      destruct (attempt <? maxRetries - 1) eqn:Hmore.
      * apply Nat.ltb_lt in Hmore.
        destruct (IH (S attempt) maxRetries (EUpstream e)
                    (mkWorld m2 ((trace w ++ [EvGet attempt (key status)])
                                 ++ [EvSleep 1000])))
          as (keys & Hlen & Htr & Hout & Hwf'); [exact Hwf2 | lia | lia |].
        exists (key status :: keys).
        split; [simpl; lia |]. split; [| split; [| exact Hwf']].
        -- rewrite Htr. simpl. rewrite <- !app_assoc. simpl.
           destruct keys as [| k keys]; [simpl in Hlen; lia | reflexivity].
        -- destruct Hout as (k & Hk & Hout). exists k. split.
           ++ destruct keys as [| k' keys]; [discriminate | exact Hk].
           ++ simpl length.
              replace (attempt + S (length keys) - 1)
                with (S attempt + length keys - 1) by lia.
              exact Hout.
      * exists [key status].
        split; [simpl; lia |]. split; [reflexivity |].
        split; [| exact Hwf2].
        exists (key status). split; [reflexivity |].
        exists e. split; [reflexivity |].
        simpl. now replace (attempt + 1 - 1) with attempt by lia.
    + exists [key status].
      split; [simpl; lia |]. split; [reflexivity |].
      split; [| exact Hwf1].
      exists (key status). split; [reflexivity |].
      exists e. split; [reflexivity |].
      simpl. now replace (attempt + 1 - 1) with attempt by lia.
Qed.
(** X13.  A run of [makeApiRequestWithKeyRotation] on a well-formed pool
    sends at least one request and at most [maxRetries], numbered from 0,
    with a wait of one second between two requests and none before the
    first or after the last.  Its completion is the answer of the upstream
    to the last request sent: that response, or that error (never the
    exhaustion error of the pool, never [null]).  With [maxRetries = 0] it
    sends nothing and throws [null]. *)
Theorem makeApiRequestWithKeyRotation_run maxRetries w :
  wf (manager w) ->
  let run := makeApiRequestWithKeyRotation zone Response axios_get
               clock_try clock_catch maxRetries w in
  (maxRetries = 0 -> run = (Throw ENull, w)) /\
  (0 < maxRetries ->
   exists keys,
     0 < length keys <= maxRetries /\
     trace (snd run) = trace w ++ attempts_trace 0 keys /\
     outcome_of axios_get 0 keys (fst run) /\
     wf (manager (snd run))).
Proof.
  intros Hwf. cbv zeta. unfold makeApiRequestWithKeyRotation. split.
  - intros ->. reflexivity.
  - intros Hpos.
    apply (request_loop_shape maxRetries 0 maxRetries ENull w Hwf Hpos).
    lia.
Qed.

(** X14.  When the first request succeeds, the loop returns its response
    after that single request, and the key that served it is clean again:
    its failure count is 0 and its last error cleared, whatever they were;
    its flags and the current index are not touched. *)
Theorem makeApiRequestWithKeyRotation_success maxRetries w status response :
  0 < maxRetries ->
  keyStatus (manager w) !! currentKeyIndex (manager w) = Some status ->
  axios_get 0 (key status) = inl response ->
  makeApiRequestWithKeyRotation zone Response axios_get clock_try clock_catch
    maxRetries w
  = (Normal response,
     mkWorld
       (set_status (currentKeyIndex (manager w))
          (mkKeyStatus (key status) (isActive status) 0 None
             (Some (clock_try 0)) (quotaExceeded status) (resetTime status))
          (manager w))
       (trace w ++ [EvGet 0 (key status)])).
Proof.
  intros Hpos Hs Hget. unfold makeApiRequestWithKeyRotation.
  destruct maxRetries as [| n]; [lia |].
  rewrite (request_loop_turn n 0 (S n) ENull w status Hs). cbv zeta.
  now rewrite Hget.
Qed.

(** X15.  An error whose HTTP status is neither 429 nor 403 never reaches
    the key manager, whatever its message says: the loop throws it after the
    one request, and the key is neither marked exhausted nor charged with a
    failure (only [lastUsed] is written).  This holds for the errors the
    key manager would call quota or invalid-key errors, the 400 of an
    unknown key among them. *)
Theorem makeApiRequestWithKeyRotation_other_status maxRetries w status e :
  0 < maxRetries ->
  keyStatus (manager w) !! currentKeyIndex (manager w) = Some status ->
  axios_get 0 (key status) = inr e ->
  has_status e 429 = false -> has_status e 403 = false ->
  makeApiRequestWithKeyRotation zone Response axios_get clock_try clock_catch
    maxRetries w
  = (Throw (EUpstream e),
     mkWorld
       (set_status (currentKeyIndex (manager w))
          (mkKeyStatus (key status) (isActive status) (failCount status)
             (lastError status) (Some (clock_try 0))
             (quotaExceeded status) (resetTime status))
          (manager w))
       (trace w ++ [EvGet 0 (key status)])).
Proof.
  intros Hpos Hs Hget H429 H403. unfold makeApiRequestWithKeyRotation.
  destruct maxRetries as [| n]; [lia |].
  apply request_loop_gives_up; try assumption.
  unfold isRotationStatus. now rewrite H429, H403.
Qed.

(** X16.  Failing over.  When the first request comes back with a 403 or
    429 that is a quota error, the key that follows in the pool is Active
    and the upstream accepts it, the loop (with at least two attempts
    allowed) returns the response of the second request: it waits one second
    in between, the index has moved to the next key and the first key is
    left marked as exhausted. *)
Theorem makeApiRequestWithKeyRotation_fails_over maxRetries w st s1 e response :
  1 < maxRetries ->
  wf (manager w) ->
  let c := currentKeyIndex (manager w) in
  c + 1 < length (apiKeys (manager w)) ->
  keyStatus (manager w) !! c = Some st ->
  keyStatus (manager w) !! (c + 1) = Some s1 ->
  status_of s1 = Active ->
  axios_get 0 (key st) = inr e ->
  isRotationStatus e = true -> isQuotaError e = true ->
  axios_get 1 (key s1) = inl response ->
  let run := makeApiRequestWithKeyRotation zone Response axios_get
               clock_try clock_catch maxRetries w in
  fst run = Normal response /\
  trace (snd run)
  = trace w ++ [EvGet 0 (key st); EvSleep 1000; EvGet 1 (key s1)] /\
  currentKeyIndex (manager (snd run)) = c + 1 /\
  exists s', keyStatus (manager (snd run)) !! c = Some s' /\
             status_of s' = QuotaExceeded /\
             lastError s' = Some (message e).
Proof.
  intros Hmax Hwf c Hlt Hst Hs1 Hact Hget0 Hrot Hq Hget1.
  cbv zeta. unfold makeApiRequestWithKeyRotation.
  destruct maxRetries as [| [| n]]; try lia.
  rewrite (request_loop_turn (S n) 0 (S (S n)) ENull w st Hst). cbv zeta.
  rewrite Hget0, Hrot. fold c.
  change (0 <? S (S n) - 1) with true. cbv iota.
  set (used := mkKeyStatus (key st) (isActive st) (failCount st)
                 (lastError st) (Some (clock_try 0)) (quotaExceeded st)
                 (resetTime st)).
  assert (Hc : c < length (keyStatus (manager w)))
    by (eapply lookup_lt_Some; eauto).
  assert (Hwf1 : wf (set_status c used (manager w)))
    by now apply wf_set_status.
  assert (Hst1 : keyStatus (set_status c used (manager w)) !! c = Some used)
    by now apply lookup_set_status.
  assert (Hs11 : keyStatus (set_status c used (manager w)) !! (c + 1)
                 = Some s1)
    by (simpl; rewrite list_lookup_insert_ne by lia; exact Hs1).
  unfold handleApiError. rewrite Hq.
  rewrite (markCurrentKeyAsExhausted_next zone (message e) (clock_catch 0)
             (set_status c used (manager w)) c used s1 Hwf1 eq_refl Hlt
             Hst1 Hs11 Hact).
  cbn [snd]. rewrite set_status_twice.
  set (marked := mkKeyStatus (key used) false (failCount used)
                   (Some (message e)) (lastUsed used) true
                   (Some (calculateResetTime zone (clock_catch 0)))).
  set (m2 := set_currentKeyIndex (c + 1) (set_status c marked (manager w))).
  assert (Hs2 : keyStatus m2 !! currentKeyIndex m2 = Some s1)
    by (unfold m2; simpl; rewrite list_lookup_insert_ne by lia; exact Hs1).
  rewrite (request_loop_turn n 1 (S (S n)) (EUpstream e)
             (mkWorld m2 ((trace w ++ [EvGet 0 (key st)]) ++ [EvSleep 1000]))
             s1 Hs2).
  cbv zeta. rewrite Hget1. cbn [fst snd trace manager].
  split; [reflexivity |].
  split; [now rewrite <- !app_assoc |].
  split; [reflexivity |].
  exists marked. split; [| split; reflexivity].
  unfold m2. simpl. rewrite list_lookup_insert_ne by lia.
  now apply list_lookup_insert_eq.
Qed.

Lemma handleApiError_neither e now m status :
  keyStatus m !! currentKeyIndex m = Some status ->
  isQuotaError e = false -> isInvalidKeyError e = false ->
  handleApiError zone e now m
  = (Normal (key status),
     set_status (currentKeyIndex m)
       (mkKeyStatus (key status) (isActive status) (failCount status)
          (lastError status) (Some now) (quotaExceeded status)
          (resetTime status)) m).
Proof.
  intros Hs Hq Hinv. unfold handleApiError. rewrite Hq, Hinv.
  unfold getCurrentKey. run_method. now rewrite Hs.
Qed.

(** X17.  A 429 or 403 that the key manager takes for neither a quota
    error nor an invalid key is tried again on the same key: no rotation,
    no failure counted.  When the second request succeeds the loop returns
    its response, with one wait of a second between the two requests. *)
Theorem makeApiRequestWithKeyRotation_same_key maxRetries w status e response :
  1 < maxRetries ->
  keyStatus (manager w) !! currentKeyIndex (manager w) = Some status ->
  axios_get 0 (key status) = inr e ->
  isRotationStatus e = true ->
  isQuotaError e = false -> isInvalidKeyError e = false ->
  axios_get 1 (key status) = inl response ->
  makeApiRequestWithKeyRotation zone Response axios_get clock_try clock_catch
    maxRetries w
  = (Normal response,
     mkWorld
       (set_status (currentKeyIndex (manager w))
          (mkKeyStatus (key status) (isActive status) 0 None
             (Some (clock_try 1)) (quotaExceeded status) (resetTime status))
          (manager w))
       (trace w ++ [EvGet 0 (key status); EvSleep 1000; EvGet 1 (key status)])).
Proof.
  intros Hmax Hs Hget0 Hrot Hq Hinv Hget1.
  unfold makeApiRequestWithKeyRotation.
  destruct maxRetries as [| [| n]]; try lia.
  rewrite (request_loop_turn (S n) 0 (S (S n)) ENull w status Hs). cbv zeta.
  rewrite Hget0, Hrot.
  change (0 <? S (S n) - 1) with true. cbv iota.
  set (i := currentKeyIndex (manager w)).
  assert (Hi : i < length (keyStatus (manager w)))
    by (eapply lookup_lt_Some; eauto).
  set (used := mkKeyStatus (key status) (isActive status) (failCount status)
                 (lastError status) (Some (clock_try 0))
                 (quotaExceeded status) (resetTime status)).
  assert (Hu : keyStatus (set_status i used (manager w))
                 !! currentKeyIndex (set_status i used (manager w))
               = Some used) by now apply lookup_set_status.
  rewrite (handleApiError_neither e (clock_catch 0) _ used Hu Hq Hinv).
  cbn [snd].
  change (currentKeyIndex (set_status i used (manager w))) with i.
  rewrite set_status_twice.
  set (again := mkKeyStatus (key used) (isActive used) (failCount used)
                  (lastError used) (Some (clock_catch 0))
                  (quotaExceeded used) (resetTime used)).
  assert (Ha : keyStatus (set_status i again (manager w))
                 !! currentKeyIndex (set_status i again (manager w))
               = Some again) by now apply lookup_set_status.
  rewrite (request_loop_turn n 1 (S (S n)) (EUpstream e)
             (mkWorld (set_status i again (manager w))
                ((trace w ++ [EvGet 0 (key status)]) ++ [EvSleep 1000]))
             again Ha).
  cbv zeta. cbn [manager trace]. change (key again) with (key status).
  rewrite Hget1.
  change (currentKeyIndex (set_status i again (manager w))) with i.
  rewrite set_status_twice, <- !app_assoc. reflexivity.
Qed.
End LoopFacts.

Lemma makeApiRequestWithKeyRotation_run_witness :
  exists keys,
    0 < length keys <= 3 /\
    trace (snd (makeApiRequestWithKeyRotation Fixtures.utc unit
                  Fixtures.always_quota403 (fun _ => Fixtures.t0)
                  (fun _ => Fixtures.t0) 3 (mkWorld Fixtures.pool3 [])))
    = attempts_trace 0 keys.
Proof.
  destruct (proj2 (makeApiRequestWithKeyRotation_run Fixtures.utc unit
                     Fixtures.always_quota403 (fun _ => Fixtures.t0)
                     (fun _ => Fixtures.t0) 3 (mkWorld Fixtures.pool3 [])
                     ltac:(unfold wf; simpl; lia)) ltac:(lia))
    as (keys & Hlen & Htr & _).
  exists keys. split; [exact Hlen | exact Htr].
Defined.

Lemma makeApiRequestWithKeyRotation_success_witness :
  makeApiRequestWithKeyRotation Fixtures.utc unit
    MoreFixtures.quota_on_K0 (fun _ => Fixtures.t0) (fun _ => Fixtures.t0) 3
    (mkWorld (set_currentKeyIndex 1 Fixtures.pool_waiting) [])
  = (Normal tt,
     mkWorld
       (set_status 1
          (mkKeyStatus "K1" false 0 None (Some Fixtures.t0) true
             (Some Fixtures.t0))
          (set_currentKeyIndex 1 Fixtures.pool_waiting))
       [EvGet 0 "K1"%string]).
Proof.
  exact (makeApiRequestWithKeyRotation_success Fixtures.utc unit
           MoreFixtures.quota_on_K0 (fun _ => Fixtures.t0)
           (fun _ => Fixtures.t0) 3
           (mkWorld (set_currentKeyIndex 1 Fixtures.pool_waiting) [])
           (mkKeyStatus "K1" false 2 (Some "quotaExceeded"%string) None true
              (Some Fixtures.t0))
           tt ltac:(lia) eq_refl eq_refl).
Defined.

Lemma makeApiRequestWithKeyRotation_other_status_witness :
  classify MoreFixtures.invalidKey400 = InvalidCredential /\
  makeApiRequestWithKeyRotation Fixtures.utc unit
    MoreFixtures.always_invalidKey (fun _ => Fixtures.t0)
    (fun _ => Fixtures.t0) 3 (mkWorld Fixtures.pool1 [])
  = (Throw (EUpstream MoreFixtures.invalidKey400),
     mkWorld
       (set_status 0
          (mkKeyStatus "K0" true 0 None (Some Fixtures.t0) false None)
          Fixtures.pool1)
       [EvGet 0 "K0"%string]).
Proof.
  split; [reflexivity |].
  exact (makeApiRequestWithKeyRotation_other_status Fixtures.utc unit
           MoreFixtures.always_invalidKey (fun _ => Fixtures.t0)
           (fun _ => Fixtures.t0) 3 (mkWorld Fixtures.pool1 [])
           (initialStatus "K0") MoreFixtures.invalidKey400
           ltac:(lia) eq_refl eq_refl eq_refl eq_refl).
Defined.

Lemma makeApiRequestWithKeyRotation_fails_over_witness :
  let run := makeApiRequestWithKeyRotation Fixtures.utc unit
               MoreFixtures.quota_on_K0 (fun _ => Fixtures.t0)
               (fun _ => Fixtures.t0) 3 (mkWorld Fixtures.pool3 []) in
  fst run = Normal tt /\
  trace (snd run) = [EvGet 0 "K0"; EvSleep 1000; EvGet 1 "K1"]%string /\
  currentKeyIndex (manager (snd run)) = 1.
Proof.
  destruct (makeApiRequestWithKeyRotation_fails_over Fixtures.utc unit
              MoreFixtures.quota_on_K0 (fun _ => Fixtures.t0)
              (fun _ => Fixtures.t0) 3 (mkWorld Fixtures.pool3 [])
              (initialStatus "K0") (initialStatus "K1") Fixtures.quota403 tt
              ltac:(lia) ltac:(unfold wf; simpl; lia) ltac:(simpl; lia)
              eq_refl eq_refl eq_refl eq_refl eq_refl eq_refl eq_refl)
    as (Hr & Ht & Hi & _).
  exact (conj Hr (conj Ht Hi)).
Defined.

Lemma makeApiRequestWithKeyRotation_same_key_witness :
  makeApiRequestWithKeyRotation Fixtures.utc unit MoreFixtures.busy_once
    (fun _ => Fixtures.t0) (fun _ => Fixtures.t0) 3
    (mkWorld Fixtures.pool1 [])
  = (Normal tt,
     mkWorld
       (set_status 0
          (mkKeyStatus "K0" true 0 None (Some Fixtures.t0) false None)
          Fixtures.pool1)
       [EvGet 0 "K0"; EvSleep 1000; EvGet 1 "K0"]%string).
Proof.
  exact (makeApiRequestWithKeyRotation_same_key Fixtures.utc unit
           MoreFixtures.busy_once (fun _ => Fixtures.t0)
           (fun _ => Fixtures.t0) 3 (mkWorld Fixtures.pool1 [])
           (initialStatus "K0") MoreFixtures.busy429 tt
           ltac:(lia) eq_refl eq_refl eq_refl eq_refl eq_refl eq_refl).
Defined.

(** * Further properties of the cached fetch *)

Section CachedFetchFacts.
Variables V W : Type.
Variable truthy : V -> bool.

Lemma cache_delete_length k (c : Cache V) :
  length (cache_delete V k c) <= length c.
Proof.
  induction c as [| e c IH]; simpl; [lia |].
  destruct (String.eqb (ce_key V e) k); simpl; lia.
Qed.

Lemma cache_delete_length_found k (c : Cache V) e :
  cache_find V k c = Some e -> S (length (cache_delete V k c)) <= length c.
Proof.
  induction c as [| e' c IH]; simpl; [discriminate |].
  destruct (String.eqb (ce_key V e') k); simpl.
  - intros _. pose proof (cache_delete_length k c). lia.
  - intros H. specialize (IH H). lia.
Qed.

Lemma cache_delete_keys k (c : Cache V) x :
  x ∈ ce_key V <$> cache_delete V k c -> x ∈ ce_key V <$> c /\ x <> k.
Proof.
  induction c as [| e c IH]; simpl; [intros H; inversion H |].
  destruct (String.eqb_spec (ce_key V e) k) as [Heq | Hne]; simpl.
  - intros H. destruct (IH H) as [Hin Hx]. split; [now right | exact Hx].
  - rewrite !elem_of_cons. intros [-> | H].
    + split; [now left | exact Hne].
    + destruct (IH H) as [Hin Hx]. split; [now right | exact Hx].
Qed.

Lemma cache_delete_NoDup k (c : Cache V) :
  NoDup (ce_key V <$> c) -> NoDup (ce_key V <$> cache_delete V k c).
Proof.
  induction c as [| e c IH]; simpl; [intros _; constructor |].
  rewrite NoDup_cons. intros [Hnot Hnd].
  destruct (String.eqb (ce_key V e) k); simpl; [now apply IH |].
  rewrite NoDup_cons. split; [| now apply IH].
  intros Hin. apply cache_delete_keys in Hin as [Hin _]. now apply Hnot.
Qed.

Lemma removelast_keys (c : Cache V) x :
  x ∈ ce_key V <$> removelast c -> x ∈ ce_key V <$> c.
Proof.
  induction c as [| e c IH]; [intros H; inversion H |].
  destruct c as [| e' c]; [intros H; inversion H |].
  change (removelast (e :: e' :: c)) with (e :: removelast (e' :: c)).
  rewrite !fmap_cons, !elem_of_cons. intros [-> | H]; [now left |].
  right. rewrite <- elem_of_cons. now apply IH.
Qed.

Lemma removelast_NoDup (c : Cache V) :
  NoDup (ce_key V <$> c) -> NoDup (ce_key V <$> removelast c).
Proof.
  induction c as [| e c IH]; [intros _; constructor |].
  destruct c as [| e' c]; [intros _; constructor |].
  change (removelast (e :: e' :: c)) with (e :: removelast (e' :: c)).
  rewrite !fmap_cons. rewrite (NoDup_cons (ce_key V e)).
  intros [Hnot Hnd]. apply NoDup_cons. split; [| now apply IH].
  intros Hin. apply Hnot. rewrite <- fmap_cons. now apply removelast_keys.
Qed.

Lemma removelast_length (c : Cache V) :
  c <> [] -> S (length (removelast c)) = length c.
Proof.
  induction c as [| e c IH]; [congruence |]. intros _.
  destruct c as [| e' c]; [reflexivity |].
  change (removelast (e :: e' :: c)) with (e :: removelast (e' :: c)).
  simpl. f_equal. now apply IH.
Qed.

Lemma cache_ok_front now k v (c : Cache V) :
  cache_ok c ->
  NoDup (ce_key V <$> (mkCacheEntry V k v now :: cache_delete V k c)).
Proof.
  intros [Hnd _]. rewrite fmap_cons. apply NoDup_cons. split.
  - simpl. intros Hin. now apply cache_delete_keys in Hin as [_ Hne].
  - now apply cache_delete_NoDup.
Qed.

Lemma cache_ok_set now k v (c : Cache V) :
  cache_ok c -> cache_ok (cache_set V now k v c).
Proof.
  intros Hok. pose proof (cache_ok_front now k v c Hok) as Hnd.
  destruct Hok as [_ Hlen]. unfold cache_set.
  pose proof (cache_delete_length k c) as Hd.
  destruct (cache_max <? length (mkCacheEntry V k v now :: cache_delete V k c))
    eqn:E.
  - split; [now apply removelast_NoDup |].
    pose proof (removelast_length
                  (mkCacheEntry V k v now :: cache_delete V k c)
                  ltac:(discriminate)) as Hr.
    simpl length in *. lia.
  - split; [exact Hnd |]. apply Nat.ltb_ge in E. exact E.
Qed.

Lemma cache_ok_get now k (c : Cache V) :
  cache_ok c -> cache_ok (snd (cache_get V now k c)).
Proof.
  intros Hok. unfold cache_get.
  destruct (cache_find V k c) as [e |] eqn:Hfind; [| exact Hok].
  destruct (isStale V now e); simpl.
  - destruct Hok as [Hnd Hlen]. split; [now apply cache_delete_NoDup |].
    pose proof (cache_delete_length k c). lia.
  - split; [now apply cache_ok_front |].
    destruct Hok as [_ Hlen].
    pose proof (cache_delete_length_found k c e Hfind). simpl. lia.
Qed.

(** X18.  Whatever the fetch function does, a call of [getCachedOrFetch]
    leaves a cache that has at most one entry for a key and at most 500
    entries, when it found one such. *)
Theorem getCachedOrFetch_keeps_cache_ok now now' key (fetch : M W V)
    (cache : Cache V) w :
  cache_ok cache ->
  cache_ok
    (fst (snd (getCachedOrFetch V W truthy now now' key fetch (cache, w)))).
Proof.
  intros Hok. unfold getCachedOrFetch.
  pose proof (cache_ok_get now key cache Hok) as Hget.
  destruct (cache_get V now key cache) as [[cached |] cache1]; simpl in *.
  - destruct (truthy cached); [exact Hget |].
    destruct (fetch w) as [[data | e] w']; simpl;
      [now apply cache_ok_set | exact Hget].
  - destruct (fetch w) as [[data | e] w']; simpl;
      [now apply cache_ok_set | exact Hget].
Qed.

(** X19.  Two calls for the same key.  After a call that missed and
    fetched [data], a second call made less than the time to live (30
    minutes) after the value was stored returns [data] and does not call its
    fetch function, provided [data] is truthy; one made at the time to live
    or later, or after a falsy [data] was stored, calls its fetch function
    and completes as that fetch does. *)
Theorem getCachedOrFetch_twice now now' t t' key (fetch fetch2 : M W V)
    (cache : Cache V) w data w' :
  cache_peek V now key cache = None ->
  fetch w = (Normal data, w') ->
  let first := getCachedOrFetch V W truthy now now' key fetch (cache, w) in
  let second := getCachedOrFetch V W truthy t t' key fetch2 (snd first) in
  fst first = Normal data /\
  ((t - now' < cache_ttl)%Z -> truthy data = true ->
   fst second = Normal data /\ snd (snd second) = w') /\
  ((cache_ttl <= t - now')%Z \/ truthy data = false ->
   fst second = fst (fetch2 w') /\ snd (snd second) = snd (fetch2 w')).
Proof.
  intros Hpeek Hfetch. cbv zeta.
  assert (Hfirst : exists c1,
             getCachedOrFetch V W truthy now now' key fetch (cache, w)
             = (Normal data, (cache_set V now' key data c1, w'))).
  { unfold getCachedOrFetch, cache_get. unfold cache_peek in Hpeek.
    destruct (cache_find V key cache) as [e |].
    - destruct (isStale V now e); [| discriminate].
      rewrite Hfetch. eauto.
    - rewrite Hfetch. eauto. }
  destruct Hfirst as [c1 ->]. cbn [fst snd].
  split; [reflexivity |].
  unfold getCachedOrFetch, cache_get.
  rewrite !cache_find_set. unfold isStale. cbn [ce_storedAt ce_value].
  split.
  - intros Ht Hv.
    replace (cache_ttl <=? t - now')%Z with false
      by (symmetry; apply Z.leb_gt; lia).
    rewrite Hv. split; reflexivity.
  - intros Hor.
    destruct (cache_ttl <=? t - now')%Z eqn:Ht.
    + destruct (fetch2 w') as [[d | e] w'']; split; reflexivity.
    + destruct Hor as [Hge | Hv]; [apply Z.leb_gt in Ht; lia |].
      rewrite Hv.
      destruct (fetch2 w') as [[d | e] w'']; split; reflexivity.
Qed.
End CachedFetchFacts.

Lemma getCachedOrFetch_keeps_cache_ok_witness :
  cache_ok
    (fst (snd (getCachedOrFetch nat nat MoreFixtures.nonzero 1000 1000
                 "video:abc"
                 (fun calls => (Normal 9, S calls))
                 ([mkCacheEntry nat "video:xyz" 7 0], 0)))).
Proof.
  apply (getCachedOrFetch_keeps_cache_ok nat nat).
  split; [| unfold cache_max; simpl; lia].
  apply NoDup_singleton.
Defined.

Lemma getCachedOrFetch_twice_witness :
  let first := getCachedOrFetch nat nat MoreFixtures.nonzero 1000 1200
                 "video:abc"
                 (fun calls => (Normal 9, S calls)) ([], 0) in
  fst (getCachedOrFetch nat nat MoreFixtures.nonzero 5000 5000 "video:abc"
         (fun calls => (Normal 0, S calls)) (snd first)) = Normal 9 /\
  snd (snd (getCachedOrFetch nat nat MoreFixtures.nonzero 5000 5000
              "video:abc"
              (fun calls => (Normal 0, S calls)) (snd first))) = 1.
Proof.
  refine (proj1 (proj2 (getCachedOrFetch_twice nat nat MoreFixtures.nonzero
                          1000 1200 5000 5000
                          "video:abc" (fun calls => (Normal 9, S calls))
                          (fun calls => (Normal 0, S calls)) [] 0 9 1
                          eq_refl eq_refl)) _ eq_refl).
  unfold cache_ttl. lia.
Defined.

(** * Further properties: reporting and loading *)

(** X20.  [getAllKeysStatus] gives one report per key, in the order of the
    pool and numbered from 1, each with the fields of the status at that
    position; exactly one report is marked as current, the one at the
    current index, and its number is the [index] that [getCurrentKeyInfo]
    gives, whose [total] is the number of reports. *)
Theorem getAllKeysStatus_one_current m :
  wf m ->
  let reports := getAllKeysStatus m in
  length reports = length (apiKeys m) /\
  (forall i r, reports !! i = Some r ->
     keyNumber r = i + 1 /\
     (isCurrent r = true <-> i = currentKeyIndex m) /\
     exists s, keyStatus m !! i = Some s /\
               report_isActive r = isActive s /\
               report_quotaExceeded r = quotaExceeded s /\
               report_failCount r = failCount s /\
               report_lastUsed r = lastUsed s /\
               report_lastError r = lastError s /\
               report_resetTime r = resetTime s) /\
  (exists r, reports !! currentKeyIndex m = Some r /\ isCurrent r = true /\
             keyNumber r = fst (fst (getCurrentKeyInfo m))) /\
  snd (fst (getCurrentKeyInfo m)) = length reports.
Proof.
  intros (Hn & Hlen & Hcur). cbv zeta. unfold getAllKeysStatus.
  rewrite length_imap. split; [exact Hlen |]. split; [| split].
  - intros i r. rewrite list_lookup_imap.
    destruct (keyStatus m !! i) as [s |] eqn:Hs; [| discriminate].
    simpl. intros [= <-]. simpl. split; [reflexivity |].
    split; [apply Nat.eqb_eq |]. exists s. repeat split.
  - destruct (lookup_lt_is_Some_2 (keyStatus m) (currentKeyIndex m))
      as [s Hs]; [lia |].
    eexists. rewrite list_lookup_imap, Hs. simpl.
    split; [reflexivity |]. split; [apply Nat.eqb_refl | reflexivity].
  - simpl. lia.
Qed.

Lemma getAllKeysStatus_one_current_witness :
  map isCurrent
    (getAllKeysStatus
       (snd (markCurrentKeyAsExhausted Fixtures.utc "quota" Fixtures.t0
               Fixtures.pool3)))
  = [false; true; false] /\
  length (getAllKeysStatus
            (snd (markCurrentKeyAsExhausted Fixtures.utc "quota" Fixtures.t0
                    Fixtures.pool3))) = 3.
Proof.
  split; [reflexivity |].
  refine (proj1 (getAllKeysStatus_one_current _ _)).
  unfold wf. simpl. lia.
Defined.

(** ** Loading the keys from the environment (X21) *)

Lemma numbered_name_inj : Inj (=) (=) numbered_name.
Proof.
  intros a b H. unfold numbered_name in H. simpl in H.
  injection H as H. now apply (inj pretty).
Qed.

Lemma env_truthy_Some env name k :
  env_truthy env name = Some k <-> env !! name = Some k /\ k <> ""%string.
Proof.
  unfold env_truthy. destruct (env !! name) as [[| c s] |]; split.
  - intros H. discriminate H.
  - intros [[= <-] H]. congruence.
  - intros [= <-]. split; [reflexivity | discriminate].
  - intros [[= <-] _]. reflexivity.
  - intros H. discriminate H.
  - intros [H _]. discriminate H.
Qed.

Lemma load_numbered_lookup env : forall turns index i k,
  load_numbered turns index env !! i = Some k ->
  env_truthy env (numbered_name (index + i)) = Some k.
Proof.
  induction turns as [| turns IH]; intros index i k; simpl;
    [intros ?; discriminate |].
  destruct (env_truthy env (numbered_name index)) as [k0 |] eqn:E;
    [| intros ?; discriminate].
  destruct i as [| i]; simpl.
  - intros [= <-]. now rewrite Nat.add_0_r.
  - intros H. apply IH in H.
    now replace (index + S i) with (S index + i) by lia.
Qed.

Lemma load_numbered_stop env : forall turns index,
  length (load_numbered turns index env) < turns ->
  env_truthy env
    (numbered_name (index + length (load_numbered turns index env))) = None.
Proof.
  induction turns as [| turns IH]; intros index; simpl; [lia |].
  destruct (env_truthy env (numbered_name index)) as [k0 |] eqn:E; simpl.
  - intros H.
    replace (index + S (length (load_numbered turns (S index) env)))
      with (S index + length (load_numbered turns (S index) env)) by lia.
    apply IH. lia.
  - intros _. now rewrite Nat.add_0_r.
Qed.

Lemma load_numbered_bound env turns index :
  length (load_numbered turns index env) <= size env.
Proof.
  set (l := load_numbered turns index env).
  set (names := numbered_name <$> seq index (length l)).
  assert (Hnd : NoDup names).
  { pose proof numbered_name_inj as Hinj.
    apply (NoDup_fmap_2 numbered_name), NoDup_seq. }
  assert (Hsub : (list_to_set names : gset string) ⊆ dom env).
  { intros x Hx. apply elem_of_list_to_set in Hx.
    apply list_elem_of_fmap in Hx as (j & -> & Hj).
    apply elem_of_seq in Hj.
    destruct (lookup_lt_is_Some_2 l (j - index)) as [k Hk]; [lia |].
    apply load_numbered_lookup in Hk.
    replace (index + (j - index)) with j in Hk by lia.
    apply env_truthy_Some in Hk as [Hk _].
    apply elem_of_dom. eauto. }
  apply subseteq_size in Hsub.
  rewrite size_list_to_set in Hsub by exact Hnd.
  rewrite size_dom in Hsub. unfold names in Hsub.
  now rewrite length_fmap, length_seq in Hsub.
Qed.

(** X21.  [loadApiKeys] takes the key of YOUTUBE_API_KEY when it is set to
    a non-empty value, then those of YOUTUBE_API_KEY_1, YOUTUBE_API_KEY_2, ...
    as long as each is set to a non-empty value: the numbered keys loaded
    are exactly the values of the first names of that sequence, and the name
    right after them is not set (or empty), so a gap in the numbering hides
    every key after it.  It throws when no key was found, which is when
    both YOUTUBE_API_KEY and YOUTUBE_API_KEY_1 are missing or empty, and
    otherwise the manager starts well-formed, on its first key. *)
Theorem loadApiKeys_spec (env : gmap string string) :
  let numbered := load_numbered (S (size env)) 1 env in
  let main := match env_truthy env "YOUTUBE_API_KEY" with
              | Some k => [k]
              | None => []
              end in
  (forall i k, numbered !! i = Some k ->
     env !! numbered_name (S i) = Some k /\ k <> ""%string) /\
  env_truthy env (numbered_name (S (length numbered))) = None /\
  (loadApiKeys env = Throw ENoKeys <->
   env_truthy env "YOUTUBE_API_KEY" = None /\
   env_truthy env (numbered_name 1) = None) /\
  (forall keys, loadApiKeys env = Normal keys ->
     keys = main ++ numbered /\ keys <> [] /\
     exists m, constructor_env env = Normal m /\ wf m /\
               apiKeys m = keys /\ currentKeyIndex m = 0) /\
  (forall e, loadApiKeys env = Throw e -> e = ENoKeys).
Proof.
  cbv zeta.
  set (numbered := load_numbered (S (size env)) 1 env).
  assert (Hstop : env_truthy env (numbered_name (S (length numbered))) = None).
  { apply (load_numbered_stop env (S (size env)) 1).
    pose proof (load_numbered_bound env (S (size env)) 1). fold numbered. 
    fold numbered in H. lia. }
  split; [| split; [exact Hstop |]].
  - intros i k Hk. apply load_numbered_lookup in Hk.
    now apply env_truthy_Some in Hk.
  - unfold loadApiKeys, constructor_env, loadApiKeys. fold numbered.
    split; [| split].
    + destruct (env_truthy env "YOUTUBE_API_KEY") as [k0 |] eqn:Emain;
        simpl.
      * split; [intros ?; discriminate | intros [? _]; discriminate].
      * destruct numbered as [| k l] eqn:En.
        -- split; [| reflexivity]. intros _. split; [reflexivity |].
           exact Hstop.
        -- split; [intros ?; discriminate |]. intros [_ H1].
           assert (Hk : numbered !! 0 = Some k) by now rewrite En.
           apply load_numbered_lookup in Hk. simpl in Hk. congruence.
    + intros keys.
      destruct (env_truthy env "YOUTUBE_API_KEY") as [k0 |]; simpl.
      * intros [= <-]. split; [reflexivity |]. split; [discriminate |].
        eexists. split; [reflexivity |]. split; [| split; reflexivity].
        apply (wf_constructor (k0 :: numbered)). reflexivity.
      * destruct numbered as [| k l]; [intros ?; discriminate |].
        intros [= <-]. split; [reflexivity |]. split; [discriminate |].
        eexists. split; [reflexivity |]. split; [| split; reflexivity].
        apply (wf_constructor (k :: l)). reflexivity.
    + intros e.
      destruct (env_truthy env "YOUTUBE_API_KEY") as [k0 |]; simpl;
        [intros ?; discriminate |].
      destruct numbered; [now intros [= <-] | intros ?; discriminate].
Qed.

Lemma loadApiKeys_spec_witness :
  loadApiKeys MoreFixtures.env_gap = Normal ["A"; "B"]%string /\
  exists m, constructor_env MoreFixtures.env_gap = Normal m /\ wf m /\
            apiKeys m = ["A"; "B"]%string /\ currentKeyIndex m = 0.
Proof.
  assert (H : loadApiKeys MoreFixtures.env_gap = Normal ["A"; "B"]%string)
    by (vm_compute; reflexivity).
  split; [exact H |].
  exact (proj2 (proj2 (proj1 (proj2 (proj2 (proj2
           (loadApiKeys_spec MoreFixtures.env_gap)))) _ H))).
Defined.

(** ** What the key manager can throw (X22) *)

(** X22.  On a well-formed pool [handleApiError] throws nothing but the
    exhaustion error of the rotation, and only after it has written what it
    learnt: the index is the one before the call, the status there is
    inactive and carries the message of the error as its last error. *)
Theorem handleApiError_throws `{JS : JsEngine} zone e now m x m' :
  wf m ->
  handleApiError zone e now m = (Throw x, m') ->
  x = EKeysExhausted /\ wf m' /\
  currentKeyIndex m' = currentKeyIndex m /\
  exists s', keyStatus m' !! currentKeyIndex m = Some s' /\
             isActive s' = false /\ lastError s' = Some (message e).
Proof.
  intros Hwf Hrun. destruct (wf_lookup _ Hwf) as [status Hs].
  assert (Hi : currentKeyIndex m < length (keyStatus m))
    by (eapply lookup_lt_Some; eauto).
  assert (Hwf' : wf m').
  { pose proof (wf_run_op zone (OpHandleApiError e now) m Hwf) as H.
    simpl in H. now rewrite Hrun in H. }
  unfold handleApiError in Hrun.
  destruct (isQuotaError e).
  - unfold markCurrentKeyAsExhausted in Hrun. revert Hrun. run_method.
    rewrite Hs. simpl. intros Hrun.
    apply rotateToNextKey_throw in Hrun; [| now apply wf_set_status].
    destruct Hrun as [-> ->].
    split; [reflexivity |]. split; [exact Hwf' |]. split; [reflexivity |].
    eexists. split; [now apply lookup_set_status |]. split; reflexivity.
  - destruct (isInvalidKeyError e).
    + destruct (markCurrentKeyError_step m (message e) now status Hs)
        as [Hlow Hhigh].
      destruct (Nat.lt_ge_cases (S (failCount status)) 3) as [Hc | Hc].
      * rewrite (Hlow Hc) in Hrun. discriminate Hrun.
      * rewrite (Hhigh Hc) in Hrun.
        apply rotateToNextKey_throw in Hrun; [| now apply wf_set_status].
        destruct Hrun as [-> ->].
        split; [reflexivity |]. split; [exact Hwf' |].
        split; [reflexivity |].
        eexists. split; [now apply lookup_set_status |]. split; reflexivity.
    + unfold getCurrentKey in Hrun. revert Hrun. run_method. rewrite Hs.
      simpl. intros Hrun. discriminate Hrun.
Qed.

Lemma handleApiError_throws_witness :
  fst (handleApiError Fixtures.utc Fixtures.quota403 Fixtures.t0
         Fixtures.pool1) = Throw EKeysExhausted /\
  currentKeyIndex
    (snd (handleApiError Fixtures.utc Fixtures.quota403 Fixtures.t0
            Fixtures.pool1)) = 0.
Proof.
  split; [reflexivity |].
  refine (proj1 (proj2 (proj2
    (handleApiError_throws Fixtures.utc Fixtures.quota403 Fixtures.t0
       Fixtures.pool1 EKeysExhausted _ _ eq_refl)))).
  unfold wf. simpl. lia.
Defined.
